(** * Index.tsx: the voxel page, its world store, camera and projector

    A shallow embedding of [src/pages/Index.tsx].

    Numbers.  Block coordinates are the integers the page produces for
    them and are modelled in [Z].  In the transition system of the page
    the camera angles, the pointer coordinates, the values of
    [Math.random] and the positions of the tiles are real numbers ([R]),
    so rounding of binary64 arithmetic is left out there.  The projector
    and the camera arithmetic are written on binary64 numbers as well
    ([Binary64]): the properties of the projected values are stated on
    those, with [Math.cos] and [Math.sin] as parameters, and the clamp and
    the concrete drags the properties quote are recomputed there.

    Arrays.  A JavaScript array is an object with identity: the model
    keeps every array in a store indexed by locations, so that a spread
    ([[...a]]), [filter] and [map] allocate a fresh array while [push] and
    [sort] update the array they are called on. *)

From Stdlib Require Import ZArith List Reals Lra Lia Bool String.
From Stdlib Require Floats.
From Stdlib Require Import Sorting.Sorted Sorting.Permutation.
From stdpp Require Import gmap.
Import ListNotations.

Local Open Scope Z_scope.

(** ** Data model *)

Inductive BlockType : Set :=
  | grass | dirt | stone | wood | leaves | planks | air.

Inductive GameMode : Set :=
  | survival | creative.

#[global] Instance BlockType_eq_dec : EqDecision BlockType.
Proof. solve_decision. Defined.

#[global] Instance GameMode_eq_dec : EqDecision GameMode.
Proof. solve_decision. Defined.

Module Block.
Record t : Set := mk { type : BlockType; x : Z; y : Z; z : Z }.
End Block.

Module InventoryItem.
Record t : Set :=
  mk { type : BlockType; count : Z; icon : string; color : string }.
End InventoryItem.

(** [cameraRotation]: two angles in degrees. *)
Module Rotation.
Record t : Type := mk { x : R; y : R }.
End Rotation.

(** [dragStart.current]: the last sampled pointer position. *)
Module Point.
Record t : Type := mk { x : R; y : R }.
End Point.

(** The style computed for one rendered tile. *)
Module Position.
Record t : Type := mk { left : R; top : R; zIndex : Z }.
End Position.

Definition BLOCK_SIZE : Z := 40.
Definition WORLD_SIZE : Z := 8.

(** ** The array store *)

Abbreviation loc := positive.

Record Store : Type := mkStore {
  arrays : gmap loc (list Block.t);   (* contents of every allocated array *)
  randomCalls : nat                   (* calls of Math.random made so far *)
}.

(** State passing: the handlers run in [M], over the store. *)
Definition ST (S A : Type) : Type := S -> A * S.

Definition ret {S A} (a : A) : ST S A := fun σ => (a, σ).

Definition bind {S A B} (m : ST S A) (k : A -> ST S B) : ST S B :=
  fun σ => let (a, σ') := m σ in k a σ'.

Abbreviation M := (ST Store).

Notation "'do' x <- m ; k" := (bind m (fun x => k))
  (at level 10, x name, m at level 100, k at level 200).
Notation "m ;; k" := (bind m (fun _ => k))
  (at level 100, k at level 200, right associativity).

(** Contents of the array at [l]; a location that was never allocated
    reads as the empty array. *)
Definition contents (σ : Store) (l : loc) : list Block.t := arrays σ !!! l.

Definition Array_read (l : loc) : M (list Block.t) :=
  fun σ => (contents σ l, σ).

Definition Array_write (l : loc) (v : list Block.t) : M unit :=
  fun σ => (tt, mkStore (<[l := v]> (arrays σ)) (randomCalls σ)).

(** A location no allocated array lives at. *)
Definition fresh_loc (σ : Store) : loc := fresh (dom (arrays σ)).

(** A new array object holding [v]. *)
Definition Array_alloc (v : list Block.t) : M loc :=
  fun σ => let l := fresh_loc σ in
           (l, mkStore (<[l := v]> (arrays σ)) (randomCalls σ)).

(** [[...a]] and [[...a, b]]: a new array. *)
Definition Array_spread (a : loc) (more : list Block.t) : M loc :=
  do v <- Array_read a; Array_alloc (v ++ more).

(** [a.push(b)]: in place. *)
Definition Array_push (a : loc) (b : Block.t) : M unit :=
  do v <- Array_read a; Array_write a (v ++ [b]).

(** [a.filter(p)]: a new array. *)
Definition Array_filter (p : Block.t -> bool) (a : loc) : M loc :=
  do v <- Array_read a; Array_alloc (List.filter p v).

(** [a.find(p)]: the first element satisfying [p], or undefined. *)
Definition Array_find (p : Block.t -> bool) (a : loc) : M (option Block.t) :=
  do v <- Array_read a; ret (List.find p v).

(** [Array.prototype.sort(cmp)] orders the elements so that [cmp a b <= 0]
    whenever [a] comes before [b], and is stable (ECMAScript 2019): elements
    that compare equal keep their order.  For a consistent comparator these
    two properties fix the result; it is computed here by insertion. *)
Fixpoint sort_insert (cmp : Block.t -> Block.t -> Z) (a : Block.t)
    (l : list Block.t) : list Block.t :=
  match l with
  | [] => [a]
  | b :: l' => if cmp a b <=? 0 then a :: l else b :: sort_insert cmp a l'
  end.

Fixpoint stable_sort (cmp : Block.t -> Block.t -> Z) (l : list Block.t)
    : list Block.t :=
  match l with
  | [] => []
  | a :: l' => sort_insert cmp a (stable_sort cmp l')
  end.

(** [a.sort(cmp)]: sorts [a] itself and returns it. *)
Definition Array_sort (cmp : Block.t -> Block.t -> Z) (a : loc) : M loc :=
  do v <- Array_read a; Array_write a (stable_sort cmp v);; ret a.

(** [Math.max(...ys, 0)]. *)
Definition Math_max_0 (ys : list Z) : Z := fold_right Z.max 0 ys.

(** ** Component state *)

Record State : Type := mkState {
  world : loc;
  selectedBlock : BlockType;
  gameMode : GameMode;
  showInventory : bool;
  cameraRotation : Rotation.t;
  isDragging : bool;
  dragStart : Point.t
}.

Definition inventory : list InventoryItem.t :=
  [ InventoryItem.mk grass 64 "🌱" "#4CAF50";
    InventoryItem.mk dirt 64 "🟤" "#8B4513";
    InventoryItem.mk stone 64 "⬜" "#808080";
    InventoryItem.mk wood 32 "🪵" "#8B4513";
    InventoryItem.mk leaves 32 "🍃" "#228B22";
    InventoryItem.mk planks 16 "🪚" "#DEB887" ].

Definition withWorld (w : loc) (s : State) : State :=
  mkState w (selectedBlock s) (gameMode s) (showInventory s)
    (cameraRotation s) (isDragging s) (dragStart s).

(** [setWorld(prev => f(prev))]. *)
Definition setWorld (f : loc -> M loc) (s : State) : M State :=
  do w <- f (world s); ret (withWorld w s).

Definition setSelectedBlock (t : BlockType) (s : State) : State :=
  mkState (world s) t (gameMode s) (showInventory s)
    (cameraRotation s) (isDragging s) (dragStart s).

Definition setGameMode (m : GameMode) (s : State) : State :=
  mkState (world s) (selectedBlock s) m (showInventory s)
    (cameraRotation s) (isDragging s) (dragStart s).

Definition setShowInventory (v : bool) (s : State) : State :=
  mkState (world s) (selectedBlock s) (gameMode s) v
    (cameraRotation s) (isDragging s) (dragStart s).

Definition setCameraRotation (f : Rotation.t -> Rotation.t) (s : State) : State :=
  mkState (world s) (selectedBlock s) (gameMode s) (showInventory s)
    (f (cameraRotation s)) (isDragging s) (dragStart s).

Definition setIsDragging (v : bool) (s : State) : State :=
  mkState (world s) (selectedBlock s) (gameMode s) (showInventory s)
    (cameraRotation s) v (dragStart s).

Definition setDragStart (p : Point.t) (s : State) : State :=
  mkState (world s) (selectedBlock s) (gameMode s) (showInventory s)
    (cameraRotation s) (isDragging s) p.

(** ** World store: [handleBlockClick] and the two action buttons *)

Definition sameCoordinates (x y z : Z) (b : Block.t) : bool :=
  (Block.x b =? x) && (Block.y b =? y) && (Block.z b =? z).

Definition handleBlockClick (x y z : Z) (isRightClick : bool) (s : State)
    : M State :=
  if isRightClick && negb (bool_decide (selectedBlock s = air)) then
    setWorld (fun prev =>
      Array_spread prev [Block.mk (selectedBlock s) x (y + 1) z]) s
  else
    setWorld (fun prev =>
      Array_filter (fun b => negb (sameCoordinates x y z b)) prev) s.

(** The handler of the "destroy" button, with the column it looks at
    ([Math.floor(WORLD_SIZE/2)] twice in the source) as parameters. *)
Definition destroyAt (centerX centerZ : Z) (s : State) : M State :=
  do centerBlock <- Array_find (fun b =>
       (Block.x b =? centerX) && (Block.z b =? centerZ) && (Block.y b >? 0))
       (world s);
  match centerBlock with
  | Some b => handleBlockClick (Block.x b) (Block.y b) (Block.z b) false s
  | None => ret s
  end.

(** [Math.floor(WORLD_SIZE/2)] is the quotient [WORLD_SIZE / 2] of [Z]. *)
Definition destroyOnClick : State -> M State :=
  destroyAt (WORLD_SIZE / 2) (WORLD_SIZE / 2).

(** The handler of the "build" button, with its two constants [centerX]
    and [centerZ] as parameters.  The arrays [filter] and [map] make on the
    way are used once and dropped; they are not put in the store. *)
Definition placeOnTopOf (centerX centerZ : Z) (s : State) : M State :=
  do w <- Array_read (world s);
  let maxY := Math_max_0 (List.map Block.y (List.filter (fun b =>
                (Block.x b =? centerX) && (Block.z b =? centerZ)) w)) in
  handleBlockClick centerX maxY centerZ true s.

Definition buildOnClick : State -> M State :=
  placeOnTopOf (WORLD_SIZE / 2) (WORLD_SIZE / 2).

(** ** Rendering: depth sort and projection *)

Definition squaredDistance (b : Block.t) : Z :=
  Block.x b * Block.x b + Block.y b * Block.y b + Block.z b * Block.z b.

(** The comparator given to [sort]. *)
Definition byDistance (a b : Block.t) : Z :=
  let distA := squaredDistance a in
  let distB := squaredDistance b in
  distB - distA.

(** [const sortedWorld = [...world].sort(...)]. *)
Definition sortedWorld (s : State) : M loc :=
  do copy <- Array_spread (world s) [];
  Array_sort byDistance copy.

(** The positions of the tiles on the page, on real numbers: [Math.floor]
    is [Int_part], [Math.cos] and [Math.sin] are the cosine and sine of the
    reals.  The numbers the program itself computes, on doubles, are those
    of [Binary64.get3DPosition64] below; the properties of the page use only
    which block a tile shows and where it stands among the tiles. *)
Definition get3DPosition (cameraRotation : Rotation.t) (x y z : Z)
    : Position.t :=
  let radX := (Rotation.x cameraRotation * PI / 180)%R in
  let radY := (Rotation.y cameraRotation * PI / 180)%R in
  let cosX := cos radX in
  let sinX := sin radX in
  let cosY := cos radY in
  let sinY := sin radY in
  let centerOffset := (IZR (WORLD_SIZE * BLOCK_SIZE) / 2)%R in
  let px := (IZR (x * BLOCK_SIZE) - centerOffset)%R in
  let py := (- IZR (y * BLOCK_SIZE))%R in
  let pz := (IZR (z * BLOCK_SIZE) - centerOffset)%R in
  let x1 := (px * cosY + pz * sinY)%R in
  let z1 := (- px * sinY + pz * cosY)%R in
  let y1 := (py * cosX - z1 * sinX)%R in
  let z2 := (py * sinX + z1 * cosX)%R in
  Position.mk (x1 + 300)%R (y1 + 300)%R (Int_part (1000 - z2)).

(** The callback of [sortedWorld.map]: a block and the position of its tile. *)
Definition tileOf (rotation : Rotation.t) (block : Block.t)
    : Block.t * Position.t :=
  let pos :=
    get3DPosition rotation (Block.x block) (Block.y block) (Block.z block) in
  (block, pos).

(** One render: the sorted copy and the tiles drawn from it, in order. *)
Definition render (s : State) : M (list (Block.t * Position.t)) :=
  do sorted <- sortedWorld s;
  do blocks <- Array_read sorted;
  ret (List.map (tileOf (cameraRotation s)) blocks).

(** ** Camera drag *)

(** The integer part of [r], towards zero ([Int_part] is the floor). *)
Definition truncate (r : R) : Z :=
  if Rle_dec 0 r then Int_part r else - Int_part (- r).

(** JavaScript's [a % b]: what is left of [a] once [b] is taken off as many
    whole times as the truncated quotient says; it has the sign of [a]. *)
Definition js_rem (a b : R) : R := (a - b * IZR (truncate (a / b)))%R.

(** The updater given to [setCameraRotation] in [handlePointerMove]. *)
Definition dragRotation (deltaX deltaY : R) (prev : Rotation.t) : Rotation.t :=
  Rotation.mk
    (Rmax (-90) (Rmin 90 (Rotation.x prev + deltaY * 0.3)))
    (js_rem (Rotation.y prev + deltaX * 0.3) 360).

Definition handlePointerDown (clientX clientY : R) (s : State) : State :=
  setDragStart (Point.mk clientX clientY) (setIsDragging true s).

Definition handlePointerMove (clientX clientY : R) (s : State) : State :=
  if negb (isDragging s) then s
  else
    let deltaX := (clientX - Point.x (dragStart s))%R in
    let deltaY := (clientY - Point.y (dragStart s))%R in
    setDragStart (Point.mk clientX clientY)
      (setCameraRotation (dragRotation deltaX deltaY) s).

Definition handlePointerUp (s : State) : State := setIsDragging false s.

(** ** Initial world, events and the page as a transition system *)

(** [for (let i = start; ...; i++) body], run for [n] iterations. *)
Fixpoint forLoop {S} (n : nat) (i : Z) (body : Z -> ST S unit) : ST S unit :=
  match n with
  | O => ret tt
  | S k => body i ;; forLoop k (i + 1) body
  end.

Inductive Event : Type :=
  | Mount                                   (* the effect run after the first render *)
  | Render                                  (* a re-render of the component *)
  | PointerDown (clientX clientY : R)
  | PointerMove (clientX clientY : R)
  | PointerUp
  | PointerLeave
  | TileClick (idx : nat)                   (* onClick of the idx-th tile *)
  | TileContextMenu (idx : nat)             (* onContextMenu of the idx-th tile *)
  | GameModeChange (v : GameMode)
  | InventoryButton
  | InventoryPick (idx : nat)               (* the idx-th inventory button *)
  | DestroyClick
  | BuildClick.

Definition emptyStore : Store := mkStore ∅ 0.

(** The [useState]/[useRef] initial values. *)
Definition initialState : M State :=
  do w <- Array_alloc [];
  ret (mkState w grass creative false (Rotation.mk 30 45) false (Point.mk 0 0)).

Section Page.

(** The sequence of values [Math.random] returns, call after call. *)
Variable random : nat -> R.

Definition Math_random : M R :=
  fun σ => (random (randomCalls σ), mkStore (arrays σ) (S (randomCalls σ))).

(** The body of the [useEffect]. *)
Definition generateWorld (s : State) : M State :=
  do initialWorld <- Array_alloc [];
  forLoop (Z.to_nat WORLD_SIZE) 0 (fun x =>
    forLoop (Z.to_nat WORLD_SIZE) 0 (fun z =>
      Array_push initialWorld (Block.mk grass x 0 z);;
      do r <- Math_random;
      if Rgt_dec r 0.7
      then Array_push initialWorld (Block.mk dirt x 1 z)
      else ret tt));;
  forLoop 3 0 (fun i =>
    do r1 <- Math_random;
    let x := Int_part (r1 * IZR (WORLD_SIZE - 1)) in
    do r2 <- Math_random;
    let z := Int_part (r2 * IZR (WORLD_SIZE - 1)) in
    Array_push initialWorld (Block.mk wood x 1 z);;
    Array_push initialWorld (Block.mk wood x 2 z);;
    Array_push initialWorld (Block.mk leaves x 3 z));;
  setWorld (fun _ => ret initialWorld) s.

(** A tile handler closes over the block drawn at position [idx] of the
    sorted copy of its render. *)
Definition onTile (idx : nat) (isRightClick : bool) (s : State) : M State :=
  do tiles <- render s;
  match nth_error tiles idx with
  | Some (block, _) =>
      handleBlockClick (Block.x block) (Block.y block) (Block.z block)
        isRightClick s
  | None => ret s
  end.

Definition step (e : Event) (s : State) : M State :=
  match e with
  | Mount => generateWorld s
  | Render => render s ;; ret s
  | PointerDown cx cy => ret (handlePointerDown cx cy s)
  | PointerMove cx cy => ret (handlePointerMove cx cy s)
  | PointerUp | PointerLeave => ret (handlePointerUp s)
  | TileClick idx => onTile idx false s
  | TileContextMenu idx => onTile idx true s
  | GameModeChange v => ret (setGameMode v s)
  | InventoryButton => ret (setShowInventory (negb (showInventory s)) s)
  | InventoryPick idx =>
      match showInventory s, nth_error inventory idx with
      | true, Some item =>
          ret (setShowInventory false
                 (setSelectedBlock (InventoryItem.type item) s))
      | _, _ => ret s
      end
  | DestroyClick => destroyOnClick s
  | BuildClick => buildOnClick s
  end.

Fixpoint run (events : list Event) (s : State) : M State :=
  match events with
  | [] => ret s
  | e :: rest => do s' <- step e s; run rest s'
  end.

(** The page after the given events, from a fresh load. *)
Definition page (events : list Event) : State * Store :=
  (do s <- initialState; run events s) emptyStore.

End Page.

(** ** Vocabulary of the properties *)

(** Order of the sorted copy: never a nearer block before a farther one. *)
Definition notNearer (a b : Block.t) : Prop :=
  squaredDistance b <= squaredDistance a.

(** The blocks of [l] at squared distance [d], in the order of [l]. *)
Definition atDistance (d : Z) (l : list Block.t) : list Block.t :=
  List.filter (fun b => squaredDistance b =? d) l.

Definition allocated (σ : Store) (l : loc) : Prop := is_Some (arrays σ !! l).

(** [frame σ σ']: every array of [σ] is still there in [σ'], with the
    same contents. *)
Definition frame (σ σ' : Store) : Prop :=
  forall l, allocated σ l -> allocated σ' l /\ contents σ' l = contents σ l.

(** The two store operations by the names the specification gives them,
    on the sequence of blocks an array holds. *)
Definition addBlock (t : BlockType) (x y z : Z) (w : list Block.t)
    : list Block.t :=
  w ++ [Block.mk t x y z].

Definition removeBlockAt (x y z : Z) (w : list Block.t) : list Block.t :=
  List.filter (fun b => negb (sameCoordinates x y z b)) w.

(** What a click does to the sequence of blocks, given the selection. *)
Definition clickValue (selected : BlockType) (x y z : Z) (isRightClick : bool)
    (w : list Block.t) : list Block.t :=
  if isRightClick && negb (bool_decide (selected = air))
  then addBlock selected x (y + 1) z w
  else removeBlockAt x y z w.


(** A page whose world array holds [w] and whose selection is [selected],
    everything else as on load. *)
Definition pageWith (selected : BlockType) (w : list Block.t) : State * Store :=
  (do l <- Array_alloc w;
   ret (mkState l selected creative false (Rotation.mk 30 45) false
          (Point.mk 0 0))) emptyStore.

(** A block stands at the given coordinates. *)
Definition at_ (x y z : Z) (b : Block.t) : Prop :=
  Block.x b = x /\ Block.y b = y /\ Block.z b = z.

(** The block the "destroy" button looks for in column [(cx, cz)]. *)
Definition aboveGround (cx cz : Z) (b : Block.t) : Prop :=
  Block.x b = cx /\ Block.z b = cz /\ 0 < Block.y b.


(** The blocks of column [(x, z)], and "the maximum y among existing blocks
    at column (x, z) (0 if none)" in the specification's words. *)
Definition column (x z : Z) (w : list Block.t) : list Block.t :=
  List.filter (fun b => (Block.x b =? x) && (Block.z b =? z)) w.

Definition maximumOr (default : Z) (ys : list Z) : Z :=
  match ys with
  | [] => default
  | y0 :: rest => fold_left Z.max rest y0
  end.

Definition columnTop (x z : Z) (w : list Block.t) : Z :=
  maximumOr 0 (List.map Block.y (column x z w)).



(** One edit of the stored sequence: nothing, one block appended at the
    end, or the blocks at one place filtered out. *)
Definition oneEdit (w w' : list Block.t) : Prop :=
  w' = w
  \/ (exists b, Block.type b <> air /\ w' = w ++ [b])
  \/ (exists x y z, w' = removeBlockAt x y z w).

(** Any number of edits. *)
Inductive editedFrom (w : list Block.t) : list Block.t -> Prop :=
  | edited_none : editedFrom w w
  | edited_more w' w'' : editedFrom w w' -> oneEdit w' w'' -> editedFrom w w''.


(** The mount effect fills one local array and draws random numbers: its
    loops, on the pair of the array's contents and the count of
    [Math.random] calls alone. *)
Abbreviation L := (ST (list Block.t * nat)).

Definition pushL (b : Block.t) : L unit :=
  fun st => (tt, (fst st ++ [b], snd st)).

Definition randomL (random : nat -> R) : L R :=
  fun st => (random (snd st), (fst st, S (snd st))).

Definition groundL (random : nat -> R) : L unit :=
  forLoop (Z.to_nat WORLD_SIZE) 0 (fun x =>
    forLoop (Z.to_nat WORLD_SIZE) 0 (fun z =>
      pushL (Block.mk grass x 0 z);;
      do r <- randomL random;
      if Rgt_dec r 0.7
      then pushL (Block.mk dirt x 1 z)
      else ret tt)).

Definition treesL (random : nat -> R) : L unit :=
  forLoop 3 0 (fun i =>
    do r1 <- randomL random;
    let x := Int_part (r1 * IZR (WORLD_SIZE - 1)) in
    do r2 <- randomL random;
    let z := Int_part (r2 * IZR (WORLD_SIZE - 1)) in
    pushL (Block.mk wood x 1 z);;
    pushL (Block.mk wood x 2 z);;
    pushL (Block.mk leaves x 3 z)).

Definition generateL (random : nat -> R) : L unit :=
  groundL random;; treesL random.

(** A program on the store that acts as [m'] on the array at [l] and on the
    random counter, and on nothing else. *)
Definition atArray (l : loc) {A} (m' : L A) : M A :=
  fun σ => let (a, st) := m' (contents σ l, randomCalls σ) in
           (a, mkStore (<[l := fst st]> (arrays σ)) (snd st)).

Definition actsAt (l : loc) {A} (m : M A) (m' : L A) : Prop :=
  forall σ, allocated σ l -> m σ = atArray l m' σ.

(** The materials the generated world is made of, and the heights they are
    generated at. *)
Definition generatedType (t : BlockType) : Prop :=
  t = grass \/ t = dirt \/ t = wood \/ t = leaves.

Definition generated (b : Block.t) : Prop :=
  (Block.type b = grass /\ Block.y b = 0)
  \/ (Block.type b = dirt /\ Block.y b = 1)
  \/ (Block.type b = wood /\ (Block.y b = 1 \/ Block.y b = 2))
  \/ (Block.type b = leaves /\ Block.y b = 3).


(** The invariant of the page: the world array exists and holds no [air]
    block. *)
Definition noAir (s : State) (σ : Store) : Prop :=
  allocated σ (world s)
  /\ Forall (fun b => Block.type b <> air) (contents σ (world s)).


(** Two pages show the same thing: equal state apart from the location of
    the world array, equal world contents, equally many random numbers
    drawn. *)
Definition sameView (p1 p2 : State * Store) : Prop :=
  let (s1, σ1) := p1 in
  let (s2, σ2) := p2 in
  withWorld 1%positive s1 = withWorld 1%positive s2
  /\ contents σ1 (world s1) = contents σ2 (world s2)
  /\ randomCalls σ1 = randomCalls σ2
  /\ allocated σ1 (world s1) /\ allocated σ2 (world s2).

Definition isRender (e : Event) : bool :=
  match e with Render => true | _ => false end.


(** ** The camera arithmetic on binary64 numbers

    [Math.min], [Math.max] and [%] as ECMAScript defines them on doubles,
    and the updater of [handlePointerMove] over them.  The remainder of two
    finite doubles is exact: it is computed on the integer mantissas and
    needs no rounding. *)
Module Binary64.

Import Floats.

Definition Math_min (a b : float) : float :=
  if (is_nan a || is_nan b)%bool then nan
  else if (a <? b)%float then a
  else if (b <? a)%float then b
  else if get_sign a then a else b.

Definition Math_max (a b : float) : float :=
  if (is_nan a || is_nan b)%bool then nan
  else if (a <? b)%float then b
  else if (b <? a)%float then a
  else if get_sign a then b else a.

Definition remainder (a b : float) : float :=
  match Prim2SF a, Prim2SF b with
  | S754_nan, _ | _, S754_nan => nan
  | S754_infinity _, _ => nan
  | _, S754_zero _ => nan
  | _, S754_infinity _ => a
  | S754_zero _, _ => a
  | S754_finite sa ma ea, S754_finite _ mb eb =>
      let e := Z.min ea eb in
      let A := Z.pos ma * 2 ^ (ea - e) in
      let B := Z.pos mb * 2 ^ (eb - e) in
      let r := Z.rem A B in
      if r =? 0 then (if sa then neg_zero else zero)
      else SF2Prim (binary_normalize prec emax (if sa then - r else r) e sa)
  end.

(** [0.3] is the double [0x1.3333333333333p-2]. *)
Definition sensitivity : float := 0x1.3333333333333p-2%float.

Definition dragRotation64 (deltaX deltaY : float) (prev : float * float)
    : float * float :=
  (Math_max (-90) (Math_min 90 (fst prev + deltaY * sensitivity)),
   remainder (snd prev + deltaX * sensitivity) 360)%float.

(** *** The projection on binary64 numbers *)

(** An integer as a double, rounded to the nearest when it has more than
    53 binary digits. *)
Definition number (n : Z) : float :=
  SF2Prim (binary_normalize prec emax n 0 false).

(** [Math.PI] is the double nearest to the number pi. *)
Definition Math_PI : float := 0x1.921fb54442d18p+1%float.

(** The double of an integer of at most 53 binary digits: its digits,
    moved up to fill the mantissa. *)
Definition SFofZ (n : Z) : spec_float :=
  match n with
  | Z0 => S754_zero false
  | Zpos m =>
      let d := Z.pos (digits2_pos m) in
      S754_finite false (Z.to_pos (Z.pos m * 2 ^ (prec - d))) (d - prec)
  | Zneg m =>
      let d := Z.pos (digits2_pos m) in
      S754_finite true (Z.to_pos (Z.pos m * 2 ^ (prec - d))) (d - prec)
  end.

(** [Math.floor]: a double [±m * 2^e] with [e >= 0] is an integer already;
    otherwise the quotient of the signed mantissa by [2^(-e)], rounded down,
    is an integer of at most 53 digits.  Zeros (with their sign), infinities
    and NaN are returned as they are. *)
Definition SFfloor (f : spec_float) : spec_float :=
  match f with
  | S754_finite s m e =>
      if 0 <=? e then f
      else SFofZ ((if s then Z.neg m else Z.pos m) / 2 ^ (- e))
  | _ => f
  end.

Definition Math_floor (v : float) : float := SF2Prim (SFfloor (Prim2SF v)).

Module Position.
Record t : Type := mk { left : float; top : float; zIndex : float }.
End Position.

Section Projection.

(** [Math.cos] and [Math.sin]: ECMAScript leaves their values to the
    implementation, so they are parameters here. *)
Variables Math_cos Math_sin : float -> float.

Definition get3DPosition64 (cameraRotation : float * float) (x y z : float)
    : Position.t :=
  (let radX := (fst cameraRotation * Math_PI) / 180 in
   let radY := (snd cameraRotation * Math_PI) / 180 in
   let cosX := Math_cos radX in
   let sinX := Math_sin radX in
   let cosY := Math_cos radY in
   let sinY := Math_sin radY in
   let centerOffset := (number WORLD_SIZE * number BLOCK_SIZE) / 2 in
   let px := (x * number BLOCK_SIZE) - centerOffset in
   let py := - (y * number BLOCK_SIZE) in
   let pz := (z * number BLOCK_SIZE) - centerOffset in
   let x1 := px * cosY + pz * sinY in
   let z1 := - px * sinY + pz * cosY in
   let y1 := py * cosX - z1 * sinX in
   let z2 := py * sinX + z1 * cosX in
   Position.mk (x1 + 300) (y1 + 300) (Math_floor (1000 - z2)))%float.

End Projection.

(** The projection in the specification's words: the centred position, the
    two rotations by their matrices (of a cosine [c] and a sine [s]), and
    the depth after both. *)
Definition centred (x y z : float) : float * float * float :=
  (x * 40 - 160, - (y * 40), z * 40 - 160)%float.

Definition yaw (c s : float) (p : float * float) : float * float :=
  (fst p * c + snd p * s, - fst p * s + snd p * c)%float.

Definition pitch (c s : float) (p : float * float) : float * float :=
  (fst p * c - snd p * s, fst p * s + snd p * c)%float.

Definition finalDepth (Math_cos Math_sin : float -> float)
    (rotation : float * float) (x y z : float) : float :=
  let '(px, py, pz) := centred x y z in
  let radX := (fst rotation * Math_PI / 180)%float in
  let radY := (snd rotation * Math_PI / 180)%float in
  snd (pitch (Math_cos radX) (Math_sin radX)
         (py, snd (yaw (Math_cos radY) (Math_sin radY) (px, pz)))).

(** A double that is a number: a zero or [±m * 2^e]; and the real number
    it stands for. *)
Definition finite (v : float) : bool :=
  match Prim2SF v with
  | S754_zero _ | S754_finite _ _ _ => true
  | _ => false
  end.

Definition SF2R (f : spec_float) : R :=
  match f with
  | S754_finite s m e =>
      let M := if s then Z.neg m else Z.pos m in
      if 0 <=? e then IZR (M * 2 ^ e) else (IZR M / IZR (2 ^ (- e)))%R
  | _ => 0%R
  end.

Definition real (v : float) : R := SF2R (Prim2SF v).

End Binary64.


(** What the data model assumes of a page: the world array exists, the
    selected material is a real one, and no block lies below 0. *)
Definition inDataModel (s : State) (σ : Store) : Prop :=
  allocated σ (world s)
  /\ selectedBlock s <> air
  /\ Forall (fun b => 0 <= Block.y b) (contents σ (world s)).


(** The test the "destroy" button applies to the blocks, and the height the
    "build" button computes for a column ([maxY] in its handler). *)
Definition aboveGroundb (cx cz : Z) (b : Block.t) : bool :=
  (Block.x b =? cx) && (Block.z b =? cz) && (Block.y b >? 0).

Definition columnHeight (x z : Z) (w : list Block.t) : Z :=
  Math_max_0 (List.map Block.y (column x z w)).


(** The events of the pointer gesture. *)
Definition isPointerEvent (e : Event) : bool :=
  match e with
  | PointerDown _ _ | PointerMove _ _ | PointerUp | PointerLeave => true
  | _ => false
  end.


(** ** What is shown of the materials *)

Definition blockColors (t : BlockType) : string :=
  match t with
  | grass => "#4CAF50"
  | dirt => "#8B4513"
  | stone => "#808080"
  | wood => "#8B4513"
  | leaves => "#228B22"
  | planks => "#DEB887"
  | air => "transparent"
  end.

Definition blockTextures (t : BlockType) : string :=
  match t with
  | grass => "linear-gradient(135deg, #4CAF50 25%, #45a049 25%, #45a049 50%, #4CAF50 50%, #4CAF50 75%, #45a049 75%, #45a049)"
  | dirt => "linear-gradient(135deg, #8B4513 25%, #7a3a10 25%, #7a3a10 50%, #8B4513 50%, #8B4513 75%, #7a3a10 75%, #7a3a10)"
  | stone => "linear-gradient(135deg, #808080 25%, #707070 25%, #707070 50%, #808080 50%, #808080 75%, #707070 75%, #707070)"
  | wood => "linear-gradient(135deg, #6B3410 25%, #5a2d0e 25%, #5a2d0e 50%, #6B3410 50%, #6B3410 75%, #5a2d0e 75%, #5a2d0e)"
  | leaves => "linear-gradient(135deg, #228B22 25%, #1e7a1e 25%, #1e7a1e 50%, #228B22 50%, #228B22 75%, #1e7a1e 75%, #1e7a1e)"
  | planks => "linear-gradient(135deg, #DEB887 25%, #d4a373 25%, #d4a373 50%, #DEB887 50%, #DEB887 75%, #d4a373 75%, #d4a373)"
  | air => "transparent"
  end.

(** The [background] of the tile drawn for a block. *)
Definition tileBackground (block : Block.t) : string :=
  blockTextures (Block.type block).

(** The children of the badge: each [{selectedBlock === t && label}] shows
    its label when the test holds and nothing otherwise. *)
Definition badgeLabels (selectedBlock : BlockType) : list string :=
  (if bool_decide (selectedBlock = grass) then ["🌱 Трава"%string] else [])
  ++ (if bool_decide (selectedBlock = dirt) then ["🟤 Земля"%string] else [])
  ++ (if bool_decide (selectedBlock = stone) then ["⬜ Камень"%string] else [])
  ++ (if bool_decide (selectedBlock = wood) then ["🪵 Дерево"%string] else [])
  ++ (if bool_decide (selectedBlock = leaves) then ["🍃 Листва"%string] else [])
  ++ (if bool_decide (selectedBlock = planks) then ["🪚 Доски"%string] else []).

(** The inventory panel: one button for each item, when the panel is shown,
    with the test [selectedBlock === item.type] that sets its variant, its
    ring and its background. *)
Definition inventoryButtons (s : State) : list (InventoryItem.t * bool) :=
  if showInventory s
  then List.map (fun item =>
         (item, bool_decide (selectedBlock s = InventoryItem.type item)))
         inventory
  else [].


(** ** The generated world, block by block *)

(** What the inner loop of the mount effect appends for the cell [(x, z)]
    when [n] random numbers have been drawn before. *)
Definition groundCell (random : nat -> R) (x z : Z) (n : nat) : list Block.t :=
  Block.mk grass x 0 z
  :: (if Rgt_dec (random n) 0.7 then [Block.mk dirt x 1 z] else []).

Definition groundRow (random : nat -> R) (x : Z) (n : nat) : list Block.t :=
  concat (List.map (fun j => groundCell random x (0 + Z.of_nat j) (n + j * 1))
            (seq 0 (Z.to_nat WORLD_SIZE))).

(** A tree on the column [(x, z)]. *)
Definition treeBlocks (column : Z * Z) : list Block.t :=
  [Block.mk wood (fst column) 1 (snd column);
   Block.mk wood (fst column) 2 (snd column);
   Block.mk leaves (fst column) 3 (snd column)].

(** The column drawn for a tree when [n] random numbers have been drawn
    before. *)
Definition treeColumn (random : nat -> R) (n : nat) : Z * Z :=
  (Int_part (random n * IZR (WORLD_SIZE - 1)),
   Int_part (random (S n) * IZR (WORLD_SIZE - 1))).

(** The cells of the grid, row after row. *)
Definition gridCells : list (Z * Z) :=
  flat_map (fun x => List.map (fun z => (Z.of_nat x, Z.of_nat z))
                       (seq 0 (Z.to_nat WORLD_SIZE)))
    (seq 0 (Z.to_nat WORLD_SIZE)).

Definition ofType (t : BlockType) (b : Block.t) : bool :=
  bool_decide (Block.type b = t).


(** The blocks of the two nested loops and the columns of the three trees,
    when [n] random numbers have been drawn before the effect runs. *)
Definition groundBlocks (random : nat -> R) (n : nat) : list Block.t :=
  concat (List.map (fun j => groundRow random (0 + Z.of_nat j) (n + j * 8))
            (seq 0 (Z.to_nat WORLD_SIZE))).

Definition treeColumns (random : nat -> R) (n : nat) : list (Z * Z) :=
  [treeColumn random (n + 64); treeColumn random (n + 64 + 2);
   treeColumn random (n + 64 + 4)].

(** * Properties *)

(** ** The stable sort *)

Lemma sort_insert_perm cmp a l : Permutation (sort_insert cmp a l) (a :: l).
Proof.
  induction l as [|b l IH]; simpl; [reflexivity|].
  destruct (cmp a b <=? 0); [reflexivity|].
  rewrite IH. apply perm_swap.
Qed.

Lemma stable_sort_perm cmp l : Permutation (stable_sort cmp l) l.
Proof.
  induction l as [|a l IH]; simpl; [constructor|].
  rewrite sort_insert_perm. now constructor.
Qed.

Lemma sort_insert_sorted a l :
  StronglySorted notNearer l ->
  StronglySorted notNearer (sort_insert byDistance a l).
Proof.
  induction 1 as [|b l Hl IH Hb]; simpl.
  - repeat constructor.
  - destruct (Z.leb_spec (byDistance a b) 0) as [Hle|Hgt].
    + constructor; [now constructor|].
      assert (Hab : notNearer a b) by (unfold notNearer, byDistance in *; lia).
      constructor; [exact Hab|].
      eapply Forall_impl; [exact Hb|].
      unfold notNearer in *. intros c Hc. lia.
    + constructor; [exact IH|].
      rewrite (sort_insert_perm byDistance a l).
      constructor; [|exact Hb].
      unfold notNearer, byDistance in *. lia.
Qed.

Lemma stable_sort_sorted l : StronglySorted notNearer (stable_sort byDistance l).
Proof.
  induction l as [|a l IH]; simpl; [constructor|].
  now apply sort_insert_sorted.
Qed.

Lemma sort_insert_atDistance d a l :
  atDistance d (sort_insert byDistance a l) = atDistance d (a :: l).
Proof.
  induction l as [|b l IH]; [reflexivity|].
  cbn [sort_insert].
  destruct (Z.leb_spec (byDistance a b) 0) as [Hle|Hgt]; [reflexivity|].
  unfold atDistance in *. cbn [List.filter] in *. rewrite IH.
  destruct (Z.eqb_spec (squaredDistance a) d) as [Ha|Ha];
    destruct (Z.eqb_spec (squaredDistance b) d) as [Hb|Hb]; try reflexivity.
  unfold byDistance in Hgt. lia.
Qed.

Lemma stable_sort_atDistance d l :
  atDistance d (stable_sort byDistance l) = atDistance d l.
Proof.
  induction l as [|a l IH]; [reflexivity|].
  cbn [stable_sort]. rewrite sort_insert_atDistance.
  unfold atDistance in *. cbn [List.filter]. now rewrite IH.
Qed.

(** ** The array store: allocation and framing *)

Lemma fresh_loc_fresh σ : ~ allocated σ (fresh_loc σ).
Proof.
  unfold allocated, fresh_loc. rewrite <- elem_of_dom. apply is_fresh.
Qed.

Lemma allocated_insert σ l l' v n :
  allocated σ l -> allocated (mkStore (<[l' := v]> (arrays σ)) n) l.
Proof.
  unfold allocated; simpl. intros H.
  destruct (decide (l' = l)) as [->|Hne].
  - rewrite lookup_insert_eq. eauto.
  - now rewrite lookup_insert_ne.
Qed.

Lemma contents_insert_eq σ l v n :
  contents (mkStore (<[l := v]> (arrays σ)) n) l = v.
Proof. unfold contents; simpl. apply lookup_total_insert_eq. Qed.

Lemma contents_insert_ne σ l l' v n :
  l' <> l -> contents (mkStore (<[l' := v]> (arrays σ)) n) l = contents σ l.
Proof. intros H. unfold contents; simpl. now apply lookup_total_insert_ne. Qed.

Lemma frame_refl σ : frame σ σ.
Proof. intros l Hl. now split. Qed.

Lemma frame_trans σ1 σ2 σ3 : frame σ1 σ2 -> frame σ2 σ3 -> frame σ1 σ3.
Proof.
  intros H12 H23 l Hl.
  destruct (H12 l Hl) as [Hl2 E12]. destruct (H23 l Hl2) as [Hl3 E23].
  split; [exact Hl3|congruence].
Qed.

(** Writing at a location that is not allocated keeps every array. *)
Lemma frame_insert_fresh σ l v n :
  ~ allocated σ l -> frame σ (mkStore (<[l := v]> (arrays σ)) n).
Proof.
  intros Hfresh l' Hl'. split; [now apply allocated_insert|].
  apply contents_insert_ne. intros ->. contradiction.
Qed.

(** Writing again at a location that [σ] did not have keeps its arrays. *)
Lemma frame_insert_new σ σ' l v n :
  ~ allocated σ l -> frame σ σ' -> frame σ (mkStore (<[l := v]> (arrays σ')) n).
Proof.
  intros Hfresh Hf l' Hl'. destruct (Hf l' Hl') as [Ha Hc]. split.
  - now apply allocated_insert.
  - rewrite contents_insert_ne; [exact Hc|]. intros ->. contradiction.
Qed.

Lemma Array_alloc_run v σ :
  Array_alloc v σ
  = (fresh_loc σ, mkStore (<[fresh_loc σ := v]> (arrays σ)) (randomCalls σ)).
Proof. reflexivity. Qed.

Lemma Array_spread_run a more σ :
  Array_spread a more σ
  = (fresh_loc σ,
     mkStore (<[fresh_loc σ := contents σ a ++ more]> (arrays σ)) (randomCalls σ)).
Proof. reflexivity. Qed.

Lemma Array_filter_run p a σ :
  Array_filter p a σ
  = (fresh_loc σ,
     mkStore (<[fresh_loc σ := List.filter p (contents σ a)]> (arrays σ))
       (randomCalls σ)).
Proof. reflexivity. Qed.

(** The sorted copy lives at a fresh location; the store keeps everything
    else. *)
Lemma sortedWorld_run s σ :
  sortedWorld s σ
  = (fresh_loc σ,
     mkStore (<[fresh_loc σ := stable_sort byDistance (contents σ (world s))]>
                (arrays σ)) (randomCalls σ)).
Proof.
  unfold sortedWorld, bind, Array_sort, bind, Array_read, Array_write, ret.
  rewrite Array_spread_run. cbn [arrays randomCalls].
  rewrite contents_insert_eq, app_nil_r, insert_insert_eq. reflexivity.
Qed.

(** ** [handleBlockClick] on the store *)

Lemma handleBlockClick_run x y z isRightClick s σ :
  handleBlockClick x y z isRightClick s σ
  = (withWorld (fresh_loc σ) s,
     mkStore (<[fresh_loc σ :=
                  clickValue (selectedBlock s) x y z isRightClick
                    (contents σ (world s))]> (arrays σ)) (randomCalls σ)).
Proof.
  unfold handleBlockClick, clickValue, setWorld, bind, ret.
  destruct (isRightClick && negb (bool_decide (selectedBlock s = air))).
  - now rewrite Array_spread_run.
  - now rewrite Array_filter_run.
Qed.

Lemma handleBlockClick_contents x y z isRightClick s σ :
  let (s', σ') := handleBlockClick x y z isRightClick s σ in
  contents σ' (world s')
  = clickValue (selectedBlock s) x y z isRightClick (contents σ (world s)).
Proof. rewrite handleBlockClick_run. cbn [world withWorld]. apply contents_insert_eq. Qed.

Lemma handleBlockClick_frame x y z isRightClick s σ :
  frame σ (snd (handleBlockClick x y z isRightClick s σ)).
Proof.
  rewrite handleBlockClick_run. cbn [snd].
  apply frame_insert_fresh, fresh_loc_fresh.
Qed.

(** ** Removal *)

Lemma sameCoordinates_at x y z b : sameCoordinates x y z b = true <-> at_ x y z b.
Proof.
  unfold sameCoordinates, at_. rewrite !andb_true_iff, !Z.eqb_eq. tauto.
Qed.

Lemma removeBlockAt_In x y z w b :
  In b (removeBlockAt x y z w) <-> In b w /\ ~ at_ x y z b.
Proof.
  unfold removeBlockAt. rewrite filter_In, negb_true_iff.
  rewrite <- sameCoordinates_at. destruct (sameCoordinates x y z b); intuition congruence.
Qed.

Lemma removeBlockAt_none x y z w :
  (forall b, In b w -> ~ at_ x y z b) -> removeBlockAt x y z w = w.
Proof.
  intros H. unfold removeBlockAt. induction w as [|b w IH]; [reflexivity|].
  cbn [List.filter]. destruct (sameCoordinates x y z b) eqn:E.
  - apply sameCoordinates_at in E. exfalso. apply (H b); [now left|exact E].
  - cbn [negb]. f_equal. apply IH. intros c Hc. apply H. now right.
Qed.

Lemma find_none_aboveGround cx cz w :
  (forall b, In b w -> ~ aboveGround cx cz b) ->
  List.find (fun b => (Block.x b =? cx) && (Block.z b =? cz) && (Block.y b >? 0)) w
  = None.
Proof.
  intros H. induction w as [|b w IH]; [reflexivity|].
  cbn [List.find].
  destruct ((Block.x b =? cx) && (Block.z b =? cz) && (Block.y b >? 0)) eqn:E.
  - exfalso. apply (H b); [now left|].
    rewrite !andb_true_iff, !Z.eqb_eq, Z.gtb_lt in E. unfold aboveGround. tauto.
  - apply IH. intros c Hc. apply H. now right.
Qed.

(** C6.  A left click on [(x, y, z)] stores the old sequence without the
    blocks at exactly [(x, y, z)]: the blocks kept are those standing
    elsewhere, in their old order; when no block stands there the sequence
    is the old one.  The "destroy" button changes nothing, neither state
    nor store, when the centre column has no block above ground. *)
Theorem C6_remove_is_filter_and_silent (σ : Store) (s : State) (x y z : Z) :
  (let (s', σ') := handleBlockClick x y z false s σ in
   contents σ' (world s') = removeBlockAt x y z (contents σ (world s))
   /\ (forall b, In b (contents σ' (world s'))
                 <-> In b (contents σ (world s)) /\ ~ at_ x y z b)
   /\ ((forall b, In b (contents σ (world s)) -> ~ at_ x y z b) ->
       contents σ' (world s') = contents σ (world s))
   /\ frame σ σ')
  /\ ((forall b, In b (contents σ (world s)) -> ~ aboveGround 4 4 b) ->
      destroyOnClick s σ = (s, σ)).
Proof.
  split.
  - pose proof (handleBlockClick_contents x y z false s σ) as Hc.
    pose proof (handleBlockClick_frame x y z false s σ) as Hf.
    destruct (handleBlockClick x y z false s σ) as [s' σ'].
    cbn [snd] in Hf. unfold clickValue in Hc. cbn [andb] in Hc.
    rewrite Hc. split; [reflexivity|]. split; [|split].
    + intros b. apply removeBlockAt_In.
    + apply removeBlockAt_none.
    + exact Hf.
  - intros H. unfold destroyOnClick, destroyAt, bind, Array_find, bind, Array_read, ret.
    change (WORLD_SIZE / 2) with 4.
    now rewrite (find_none_aboveGround 4 4 _ H).
Qed.

Lemma C6_remove_is_filter_and_silent_witness :
  let (s, σ) := pageWith grass [Block.mk grass 0 0 0; Block.mk dirt 4 0 4] in
  (let (s', σ') := handleBlockClick 1 1 1 false s σ in
   contents σ' (world s') = contents σ (world s))
  /\ destroyOnClick s σ = (s, σ).
Proof.
  destruct (pageWith _ _) as [s σ] eqn:E0.
  pose proof (C6_remove_is_filter_and_silent σ s 1 1 1) as [H1 H2].
  assert (E : contents σ (world s) = [Block.mk grass 0 0 0; Block.mk dirt 4 0 4])
    by (injection E0 as <- <-; reflexivity).
  split.
  - destruct (handleBlockClick 1 1 1 false s σ) as [s' σ'].
    destruct H1 as (_ & _ & H & _). apply H.
    rewrite E. intros b [<-|[<-|[]]]; unfold at_; simpl; lia.
  - apply H2. rewrite E.
    intros b [<-|[<-|[]]]; unfold aboveGround; simpl; lia.
Defined.

(** ** Adding, then removing *)

Lemma removeBlockAt_addBlock t x y z w :
  removeBlockAt x y z (addBlock t x y z w) = removeBlockAt x y z w.
Proof.
  unfold removeBlockAt, addBlock. rewrite List.filter_app. cbn [List.filter].
  replace (sameCoordinates x y z (Block.mk t x y z)) with true.
  - apply app_nil_r.
  - symmetry. apply sameCoordinates_at. now unfold at_.
Qed.

Lemma removeBlockAt_clear x y z w :
  Forall (fun b => ~ at_ x y z b) (removeBlockAt x y z w).
Proof. apply List.Forall_forall. now intros b ?%removeBlockAt_In. Qed.

Lemma pageWith_contents selected w :
  let (s, σ) := pageWith selected w in
  contents σ (world s) = w /\ selectedBlock s = selected /\ allocated σ (world s).
Proof.
  unfold pageWith, bind, ret. rewrite Array_alloc_run. cbn [world selectedBlock].
  split; [apply contents_insert_eq|]. split; [reflexivity|].
  unfold allocated. cbn [arrays]. rewrite lookup_insert_eq. eauto.
Qed.

(** C7.  A block of a material [t] appended at [(x, y, z)] (a right click
    on the tile below, with [t] selected) and a removal at [(x, y, z)] (a
    left click there) leave no block at [(x, y, z)]: the world is the old
    one without its blocks at that place.  On a world whose only block is at
    [(2, 0, 3)] the removal leaves the empty world. *)
Theorem C7_remove_after_add (σ : Store) (s : State) (x y z : Z) :
  (forall t w, removeBlockAt x y z (addBlock t x y z w) = removeBlockAt x y z w
               /\ Forall (fun b => ~ at_ x y z b)
                    (removeBlockAt x y z (addBlock t x y z w)))
  /\ (let (s1, σ1) := handleBlockClick x (y - 1) z true s σ in
      let (s2, σ2) := handleBlockClick x y z false s1 σ1 in
      Forall (fun b => ~ at_ x y z b) (contents σ2 (world s2))
      /\ (selectedBlock s <> air ->
          contents σ1 (world s1)
          = addBlock (selectedBlock s) x y z (contents σ (world s))
          /\ contents σ2 (world s2) = removeBlockAt x y z (contents σ (world s))))
  /\ (forall t,
      let (s0, σ0) := pageWith t [Block.mk t 2 0 3] in
      let (s', σ') := handleBlockClick 2 0 3 false s0 σ0 in
      contents σ' (world s') = []).
Proof.
  split; [|split].
  - intros t w. split; [apply removeBlockAt_addBlock|apply removeBlockAt_clear].
  - pose proof (handleBlockClick_contents x (y - 1) z true s σ) as H1.
    assert (Hsel : selectedBlock (fst (handleBlockClick x (y - 1) z true s σ))
                   = selectedBlock s) by now rewrite handleBlockClick_run.
    destruct (handleBlockClick x (y - 1) z true s σ) as [s1 σ1].
    pose proof (handleBlockClick_contents x y z false s1 σ1) as H2.
    destruct (handleBlockClick x y z false s1 σ1) as [s2 σ2].
    unfold clickValue in H2. cbn [andb] in H2. rewrite H2.
    split; [apply removeBlockAt_clear|].
    intros Hair. unfold clickValue in H1.
    rewrite bool_decide_eq_false_2 in H1 by exact Hair. cbn [andb negb] in H1.
    replace (y - 1 + 1) with y in H1 by lia.
    split; [exact H1|]. rewrite H1. apply removeBlockAt_addBlock.
  - intros t. pose proof (pageWith_contents t [Block.mk t 2 0 3]) as H0.
    destruct (pageWith t [Block.mk t 2 0 3]) as [s0 σ0].
    destruct H0 as (H0 & _).
    pose proof (handleBlockClick_contents 2 0 3 false s0 σ0) as H1.
    destruct (handleBlockClick 2 0 3 false s0 σ0) as [s' σ'].
    rewrite H1, H0. reflexivity.
Qed.

Lemma C7_remove_after_add_witness :
  let (s, σ) := pageWith stone [Block.mk grass 1 0 1] in
  let (s1, σ1) := handleBlockClick 1 0 1 true s σ in
  let (s2, σ2) := handleBlockClick 1 1 1 false s1 σ1 in
  contents σ1 (world s1) = [Block.mk grass 1 0 1; Block.mk stone 1 1 1]
  /\ contents σ2 (world s2) = [Block.mk grass 1 0 1].
Proof.
  pose proof (pageWith_contents stone [Block.mk grass 1 0 1]) as H0.
  destruct (pageWith _ _) as [s σ]. destruct H0 as (Hw & Hsel & _).
  pose proof (C7_remove_after_add σ s 1 1 1) as (_ & H & _).
  change (1 - 1) with 0 in H.
  destruct (handleBlockClick 1 0 1 true s σ) as [s1 σ1].
  destruct (handleBlockClick 1 1 1 false s1 σ1) as [s2 σ2].
  destruct H as (_ & H). rewrite Hsel, Hw in H.
  destruct H as [H1 H2]; [discriminate|]. now rewrite H1, H2.
Defined.

(** ** Building on top of a column *)

Lemma fold_left_max_0 ys a :
  Z.max 0 (fold_left Z.max ys a) = Z.max a (fold_right Z.max 0 ys).
Proof.
  revert a. induction ys as [|b ys IH]; intros a; cbn [fold_left fold_right].
  - lia.
  - rewrite IH. lia.
Qed.

Lemma Math_max_0_maximumOr ys : Math_max_0 ys = Z.max 0 (maximumOr 0 ys).
Proof.
  unfold Math_max_0. destruct ys as [|y0 rest]; [reflexivity|].
  cbn [maximumOr fold_right]. now rewrite fold_left_max_0.
Qed.


Lemma placeOnTopOf_run x z s σ :
  placeOnTopOf x z s σ
  = handleBlockClick x (Z.max 0 (columnTop x z (contents σ (world s)))) z true s σ.
Proof.
  unfold placeOnTopOf, bind, Array_read.
  now rewrite Math_max_0_maximumOr.
Qed.

(** ** Rendering leaves the stored world alone *)

Lemma render_run s σ :
  render s σ
  = (List.map (tileOf (cameraRotation s))
       (stable_sort byDistance (contents σ (world s))),
     mkStore (<[fresh_loc σ := stable_sort byDistance (contents σ (world s))]>
                (arrays σ)) (randomCalls σ)).
Proof.
  unfold render, bind. rewrite sortedWorld_run.
  unfold Array_read, ret. now rewrite contents_insert_eq.
Qed.

Lemma render_frame s σ : frame σ (snd (render s σ)).
Proof. rewrite render_run. apply frame_insert_fresh, fresh_loc_fresh. Qed.

Lemma sortedWorld_frame s σ : frame σ (snd (sortedWorld s σ)).
Proof. rewrite sortedWorld_run. apply frame_insert_fresh, fresh_loc_fresh. Qed.

Lemma clickValue_oneEdit selected x y z isRightClick w :
  oneEdit w (clickValue selected x y z isRightClick w).
Proof.
  unfold clickValue, oneEdit, addBlock.
  destruct isRightClick; cbn [andb]; [|eauto 8].
  destruct (decide (selected = air)) as [Hair|Hair].
  - rewrite bool_decide_eq_true_2 by exact Hair. cbn [negb]. eauto 8.
  - rewrite bool_decide_eq_false_2 by exact Hair. cbn [negb]. right. left.
    eexists. split; [|reflexivity]. exact Hair.
Qed.

(** A click on a state whose world is allocated: one edit of the sequence,
    stored in a new array. *)
Lemma handleBlockClick_edit x y z isRightClick s σ :
  allocated σ (world s) ->
  let (s', σ') := handleBlockClick x y z isRightClick s σ in
  frame σ σ' /\ allocated σ' (world s')
  /\ oneEdit (contents σ (world s)) (contents σ' (world s')).
Proof.
  intros Hw. pose proof (handleBlockClick_frame x y z isRightClick s σ) as Hf.
  rewrite handleBlockClick_run in *. cbn [snd world withWorld] in *.
  split; [exact Hf|]. split.
  - unfold allocated. cbn [arrays]. rewrite lookup_insert_eq. eauto.
  - rewrite contents_insert_eq. apply clickValue_oneEdit.
Qed.

Lemma frame_oneEdit σ σ1 s' σ' w :
  allocated σ w -> frame σ σ1 ->
  frame σ1 σ' /\ allocated σ' (world s') /\ oneEdit (contents σ1 w) (contents σ' (world s')) ->
  frame σ σ' /\ allocated σ' (world s') /\ oneEdit (contents σ w) (contents σ' (world s')).
Proof.
  intros Hw Hf (Hf' & Ha & He). destruct (Hf w Hw) as [_ E]. rewrite E in He.
  split; [eapply frame_trans; eauto|]. now split.
Qed.

Section PageProperties.

Variable random : nat -> R.

Lemma same_world_edit σ σ' s s' :
  allocated σ (world s) -> frame σ σ' -> world s' = world s ->
  frame σ σ' /\ allocated σ' (world s')
  /\ oneEdit (contents σ (world s)) (contents σ' (world s')).
Proof.
  intros Hw Hf ->. destruct (Hf _ Hw) as [Ha E].
  split; [exact Hf|]. split; [exact Ha|]. left. exact E.
Qed.

Lemma onTile_edit idx isRightClick s σ :
  allocated σ (world s) ->
  let (s', σ') := onTile idx isRightClick s σ in
  frame σ σ' /\ allocated σ' (world s')
  /\ oneEdit (contents σ (world s)) (contents σ' (world s')).
Proof.
  intros Hw. unfold onTile, bind.
  pose proof (render_frame s σ) as Hf.
  destruct (render s σ) as [tiles σ1]. cbn [snd] in Hf.
  destruct (nth_error tiles idx) as [[block pos]|].
  - pose proof (handleBlockClick_edit (Block.x block) (Block.y block)
                  (Block.z block) isRightClick s σ1 (proj1 (Hf _ Hw))) as H.
    destruct (handleBlockClick _ _ _ _ _ _) as [s' σ'].
    now apply (frame_oneEdit σ σ1).
  - now apply same_world_edit.
Qed.

Lemma destroyAt_edit cx cz s σ :
  allocated σ (world s) ->
  let (s', σ') := destroyAt cx cz s σ in
  frame σ σ' /\ allocated σ' (world s')
  /\ oneEdit (contents σ (world s)) (contents σ' (world s')).
Proof.
  intros Hw. unfold destroyAt, bind, Array_find, bind, Array_read, ret.
  destruct (List.find _ _) as [b|].
  - now apply handleBlockClick_edit.
  - apply same_world_edit; [exact Hw|apply frame_refl|reflexivity].
Qed.

Lemma placeOnTopOf_edit cx cz s σ :
  allocated σ (world s) ->
  let (s', σ') := placeOnTopOf cx cz s σ in
  frame σ σ' /\ allocated σ' (world s')
  /\ oneEdit (contents σ (world s)) (contents σ' (world s')).
Proof.
  intros Hw. rewrite placeOnTopOf_run. now apply handleBlockClick_edit.
Qed.

(** Every event but the mount effect is one edit of the stored sequence
    and modifies no stored array. *)
Lemma step_edit e s σ :
  e <> Mount -> allocated σ (world s) ->
  let (s', σ') := step random e s σ in
  frame σ σ' /\ allocated σ' (world s')
  /\ oneEdit (contents σ (world s)) (contents σ' (world s')).
Proof.
  intros He Hw.
  destruct e; cbn [step]; try congruence;
    try (apply same_world_edit; [exact Hw|apply frame_refl|reflexivity]).
  - unfold bind, ret. pose proof (render_frame s σ) as Hf.
    destruct (render s σ) as [tiles σ1]. now apply same_world_edit.
  - apply same_world_edit; [exact Hw|apply frame_refl|].
    unfold handlePointerMove. now destruct (isDragging s).
  - now apply onTile_edit.
  - now apply onTile_edit.
  - destruct (showInventory s), (nth_error inventory idx);
      apply same_world_edit; try exact Hw; try apply frame_refl; reflexivity.
  - now apply destroyAt_edit.
  - now apply placeOnTopOf_edit.
Qed.

End PageProperties.

(** ** The mount effect *)

Lemma insert_contents σ l :
  allocated σ l ->
  mkStore (<[l := contents σ l]> (arrays σ)) (randomCalls σ) = σ.
Proof.
  intros [v Hv]. destruct σ as [h n]. unfold contents in *. cbn in *.
  f_equal. apply insert_id. now rewrite (lookup_total_correct _ _ _ Hv).
Qed.

Lemma actsAt_ret l {A} (a : A) : actsAt l (ret a) (ret a).
Proof.
  intros σ Hl. unfold atArray, ret. cbn [fst snd].
  now rewrite insert_contents.
Qed.

Lemma actsAt_bind l {A B} (m : M A) m' (k : A -> M B) k' :
  actsAt l m m' -> (forall a, actsAt l (k a) (k' a)) ->
  actsAt l (bind m k) (bind m' k').
Proof.
  intros Hm Hk σ Hl. unfold bind at 1. rewrite (Hm σ Hl).
  unfold atArray at 1 2. unfold bind.
  destruct (m' (contents σ l, randomCalls σ)) as [a [v n]]. cbn [fst snd].
  rewrite Hk by (unfold allocated; cbn [arrays]; rewrite lookup_insert_eq; eauto).
  unfold atArray. rewrite contents_insert_eq. cbn [arrays randomCalls].
  destruct (k' a (v, n)) as [b [v' n']]. cbn [fst snd].
  now rewrite insert_insert_eq.
Qed.

Lemma actsAt_push l b : actsAt l (Array_push l b) (pushL b).
Proof. intros σ Hl. reflexivity. Qed.

Lemma actsAt_random random l : actsAt l (Math_random random) (randomL random).
Proof.
  intros σ Hl. unfold Math_random, atArray, randomL. cbn [fst snd].
  f_equal. destruct σ as [h n]. destruct Hl as [v Hv].
  unfold contents in *. cbn in *. f_equal.
  symmetry. apply insert_id. now rewrite (lookup_total_correct _ _ _ Hv).
Qed.

Lemma actsAt_forLoop l body body' :
  (forall i, actsAt l (body i) (body' i)) ->
  forall n i, actsAt l (forLoop n i body) (forLoop n i body').
Proof.
  intros Hb n. induction n as [|n IH]; intros i; cbn [forLoop].
  - apply actsAt_ret.
  - apply actsAt_bind; [apply Hb|]. intros _. apply IH.
Qed.

Lemma generateWorld_run random s σ :
  generateWorld random s σ
  = let st := snd (generateL random ([], randomCalls σ)) in
    (withWorld (fresh_loc σ) s,
     mkStore (<[fresh_loc σ := fst st]> (arrays σ)) (snd st)).
Proof.
  unfold generateWorld. unfold bind at 1. rewrite Array_alloc_run.
  set (l := fresh_loc σ). set (σ0 := mkStore _ _).
  assert (Hl : allocated σ0 l)
    by (unfold allocated, σ0; cbn [arrays]; rewrite lookup_insert_eq; eauto).
  match goal with
  | |- bind ?ground (fun _ => bind ?trees ?k) σ0 = _ =>
      assert (Hall : actsAt l (bind ground (fun _ => bind trees k))
                       (groundL random;; treesL random;; ret (withWorld l s)))
  end.
  { apply actsAt_bind.
    - apply actsAt_forLoop. intros x. apply actsAt_forLoop. intros z.
      apply actsAt_bind; [apply actsAt_push|]. intros _.
      apply actsAt_bind; [apply actsAt_random|]. intros r.
      destruct (Rgt_dec r 0.7); [apply actsAt_push|apply actsAt_ret].
    - intros _. apply actsAt_bind.
      + apply actsAt_forLoop. intros i.
        apply actsAt_bind; [apply actsAt_random|]. intros r1.
        apply actsAt_bind; [apply actsAt_random|]. intros r2.
        cbv zeta.
        apply actsAt_bind; [apply actsAt_push|]. intros _.
        apply actsAt_bind; [apply actsAt_push|]. intros _.
        apply actsAt_push.
      + intros _ σ1 Hl1. unfold setWorld, bind, ret, atArray. cbn [fst snd].
        now rewrite insert_contents. }
  rewrite (Hall σ0 Hl). unfold atArray, generateL, bind, ret.
  replace (contents σ0 l) with (@nil Block.t)
    by (symmetry; apply contents_insert_eq).
  change (randomCalls σ0) with (randomCalls σ).
  destruct (groundL random ([], randomCalls σ)) as [[] st1].
  destruct (treesL random st1) as [[] [v n]].
  cbn [fst snd]. unfold σ0. cbn [arrays].
  now rewrite insert_insert_eq.
Qed.

(** ** No [air] block *)

Lemma forLoop_invariant {S} (P : S -> Prop) (body : Z -> ST S unit) :
  (forall i st, P st -> P (snd (body i st))) ->
  forall n i st, P st -> P (snd (forLoop n i body st)).
Proof.
  intros Hb n. induction n as [|n IH]; intros i st Hst; cbn [forLoop].
  - exact Hst.
  - unfold bind. specialize (Hb i st Hst).
    destruct (body i st) as [[] st1]. now apply IH.
Qed.

Lemma pushL_generated (b : Block.t) st :
  generated b ->
  Forall generated (fst st) ->
  Forall generated (fst (snd (pushL b st))).
Proof.
  intros Hb Hst. cbn. apply List.Forall_app. split; [exact Hst|].
  now constructor.
Qed.

Lemma generateL_generated random n :
  Forall generated (fst (snd (generateL random ([], n)))).
Proof.
  set (P := fun st : list Block.t * nat => Forall generated (fst st)).
  assert (Hpush : forall b st, generated b -> P st -> P (snd (pushL b st)))
    by (intros; now apply pushL_generated).
  assert (Hrandom : forall st, P st -> P (snd (randomL random st)))
    by (intros st Hst; exact Hst).
  change (P (snd (generateL random ([], n)))).
  assert (Hground : P (snd (groundL random ([], n)))).
  { unfold groundL. apply forLoop_invariant; [|constructor].
    intros x st Hst. apply forLoop_invariant; [|exact Hst].
    intros z st1 Hst1. unfold bind.
    destruct (pushL _ st1) as [[] st2] eqn:E2.
    assert (H2 : P st2).
    { change st2 with (snd (tt, st2)). rewrite <- E2. apply Hpush; [|exact Hst1].
      unfold generated; cbn; intuition. }
    destruct (randomL random st2) as [r st3] eqn:E3.
    assert (H3 : P st3).
    { change st3 with (snd (r, st3)). rewrite <- E3. now apply Hrandom. }
    destruct (Rgt_dec r 0.7); [|exact H3].
    apply Hpush; [|exact H3]. unfold generated; cbn; intuition. }
  unfold generateL, bind.
  destruct (groundL random ([], n)) as [[] st1]. cbn [snd] in Hground.
  unfold treesL. apply forLoop_invariant; [|exact Hground].
  intros i st Hst. unfold bind.
  destruct (randomL random st) as [r1 st2] eqn:E2.
  assert (H2 : P st2).
  { change st2 with (snd (r1, st2)). rewrite <- E2. now apply Hrandom. }
  destruct (randomL random st2) as [r2 st3] eqn:E3.
  assert (H3 : P st3).
  { change st3 with (snd (r2, st3)). rewrite <- E3. now apply Hrandom. }
  cbv zeta.
  destruct (pushL _ st3) as [[] st4] eqn:E4.
  assert (H4 : P st4).
  { change st4 with (snd (tt, st4)). rewrite <- E4. apply Hpush; [|exact H3].
    unfold generated; cbn; intuition. }
  destruct (pushL _ st4) as [[] st5] eqn:E5.
  assert (H5 : P st5).
  { change st5 with (snd (tt, st5)). rewrite <- E5. apply Hpush; [|exact H4].
    unfold generated; cbn; intuition. }
  apply Hpush; [|exact H5]. unfold generated; cbn; intuition.
Qed.

Lemma generated_type b : generated b -> generatedType (Block.type b).
Proof. unfold generated, generatedType. tauto. Qed.

Lemma generated_y b : generated b -> 0 <= Block.y b <= 3.
Proof. unfold generated. intros [[_ H] | [[_ H] | [[_ [H | H]] | [_ H]]]]; lia. Qed.

Lemma generatedType_not_air t : generatedType t -> t <> air.
Proof. unfold generatedType. intros [-> | [-> | [-> | ->]]]; discriminate. Qed.

Lemma oneEdit_noAir w w' :
  oneEdit w w' ->
  Forall (fun b => Block.type b <> air) w ->
  Forall (fun b => Block.type b <> air) w'.
Proof.
  intros [-> | [(b & Hb & ->) | (x & y & z & ->)]] Hw.
  - exact Hw.
  - apply List.Forall_app. split; [exact Hw|]. now constructor.
  - rewrite List.Forall_forall in *. intros b Hb.
    apply removeBlockAt_In in Hb. now apply Hw.
Qed.

Section NoAir.

Variable random : nat -> R.

Lemma mount_generated s σ :
  let (s', σ') := step random Mount s σ in
  allocated σ' (world s') /\ selectedBlock s' = selectedBlock s
  /\ Forall generated (contents σ' (world s')).
Proof.
  cbn [step]. rewrite generateWorld_run. cbv zeta. cbn [world withWorld].
  split; [|split; [reflexivity|]].
  - unfold allocated. cbn [arrays]. rewrite lookup_insert_eq. eauto.
  - rewrite contents_insert_eq. apply generateL_generated.
Qed.

Lemma mount_types s σ :
  let (s', σ') := step random Mount s σ in
  allocated σ' (world s')
  /\ Forall (fun b => generatedType (Block.type b)) (contents σ' (world s')).
Proof.
  pose proof (mount_generated s σ) as H.
  destruct (step random Mount s σ) as [s' σ']. destruct H as (Ha & _ & Hg).
  split; [exact Ha|]. eapply Forall_impl; [exact Hg|]. apply generated_type.
Qed.

Lemma step_noAir e s σ :
  noAir s σ -> let (s', σ') := step random e s σ in noAir s' σ'.
Proof.
  intros [Hw Hair].
  assert (e = Mount \/ e <> Mount) as [-> | He]
    by (destruct e; (now left) || (right; discriminate)).
  - pose proof (mount_types s σ) as H.
    destruct (step random Mount s σ) as [s' σ']. destruct H as [Ha Ht].
    split; [exact Ha|]. eapply Forall_impl; [exact Ht|].
    intros b. apply generatedType_not_air.
  - pose proof (step_edit random e s σ He Hw) as H.
    destruct (step random e s σ) as [s' σ']. destruct H as (_ & Ha & Hed).
    split; [exact Ha|]. now apply (oneEdit_noAir _ _ Hed).
Qed.

Lemma run_noAir events s σ :
  noAir s σ -> let (s', σ') := run random events s σ in noAir s' σ'.
Proof.
  revert s σ. induction events as [|e events IH]; intros s σ H; cbn [run].
  - exact H.
  - unfold bind. pose proof (step_noAir e s σ H) as H1.
    destruct (step random e s σ) as [s1 σ1]. now apply IH.
Qed.

Lemma initialState_noAir :
  let (s, σ) := initialState emptyStore in noAir s σ.
Proof.
  unfold initialState, bind, ret. rewrite Array_alloc_run.
  split; cbn [world].
  - unfold allocated. cbn [arrays]. rewrite lookup_insert_eq. eauto.
  - rewrite contents_insert_eq. constructor.
Qed.

(** C9.  Whatever the random numbers and whatever the events since the page
    was loaded, the world holds no [air] block.  The mount effect generates
    grass, dirt, wood and leaves only; a right click appends a block, of the
    selected material, exactly when that material is not [air], and with
    [air] selected it removes the clicked block; every block a removal keeps
    is a block of the old world, unchanged; and every event preserves the
    absence of [air]. *)
Theorem C9_no_air_block (events : list Event) :
  (let (s, σ) := page random events in
   Forall (fun b => Block.type b <> air) (contents σ (world s)))
  /\ (forall s σ,
      let (s', σ') := step random Mount s σ in
      Forall (fun b => generatedType (Block.type b)) (contents σ' (world s')))
  /\ (forall x y z s σ,
      let (s', σ') := handleBlockClick x y z true s σ in
      (selectedBlock s <> air ->
       contents σ' (world s')
       = contents σ (world s) ++ [Block.mk (selectedBlock s) x (y + 1) z])
      /\ (selectedBlock s = air ->
          contents σ' (world s') = removeBlockAt x y z (contents σ (world s))))
  /\ (forall x y z w b, In b (removeBlockAt x y z w) -> In b w)
  /\ (forall e s σ,
      noAir s σ -> let (s', σ') := step random e s σ in noAir s' σ').
Proof.
  split; [|split; [|split; [|split]]].
  - unfold page, bind. pose proof initialState_noAir as H0.
    destruct (initialState emptyStore) as [s0 σ0].
    pose proof (run_noAir events s0 σ0 H0) as H.
    destruct (run random events s0 σ0) as [s σ]. exact (proj2 H).
  - intros s σ. pose proof (mount_types s σ) as H.
    destruct (step random Mount s σ) as [s' σ']. exact (proj2 H).
  - intros x y z s σ.
    pose proof (handleBlockClick_contents x y z true s σ) as Hc.
    destruct (handleBlockClick x y z true s σ) as [s' σ'].
    unfold clickValue in Hc. cbn [andb] in Hc. split; intros Hair.
    + now rewrite bool_decide_eq_false_2 in Hc by exact Hair.
    + now rewrite bool_decide_eq_true_2 in Hc by exact Hair.
  - intros x y z w b Hb. now apply removeBlockAt_In in Hb.
  - apply step_noAir.
Qed.

End NoAir.

Lemma C9_no_air_block_witness :
  let (s, σ) := pageWith air [Block.mk grass 4 0 4; Block.mk wood 4 1 4] in
  (let (s', σ') := handleBlockClick 4 1 4 true s σ in
   contents σ' (world s') = [Block.mk grass 4 0 4])
  /\ (let (s', σ') := step (fun _ => 0%R) BuildClick s σ in noAir s' σ').
Proof.
  pose proof (pageWith_contents air [Block.mk grass 4 0 4; Block.mk wood 4 1 4])
    as H0.
  destruct (pageWith _ _) as [s σ]. destruct H0 as (Hw & Hsel & Ha).
  pose proof (C9_no_air_block (fun _ => 0%R) [] ) as (_ & _ & Hclick & _ & Hstep).
  split.
  - specialize (Hclick 4 1 4 s σ).
    destruct (handleBlockClick 4 1 4 true s σ) as [s' σ'].
    destruct Hclick as [_ Hclick]. rewrite (Hclick Hsel), Hw. reflexivity.
  - apply Hstep. split; [exact Ha|]. rewrite Hw.
    repeat constructor; discriminate.
Defined.

(** ** The depth sort *)

Lemma atDistance_head a l : atDistance (squaredDistance a) (a :: l)
                            = a :: atDistance (squaredDistance a) l.
Proof. unfold atDistance. cbn [List.filter]. now rewrite Z.eqb_refl. Qed.

Lemma head_notNearer a b l1 l2 :
  StronglySorted notNearer (b :: l2) ->
  atDistance (squaredDistance a) (a :: l1) = atDistance (squaredDistance a) (b :: l2) ->
  squaredDistance a <= squaredDistance b.
Proof.
  intros Hs H. rewrite atDistance_head in H.
  assert (Hin : In a (b :: l2)).
  { assert (Hin : In a (atDistance (squaredDistance a) (b :: l2)))
      by (rewrite <- H; now left).
    unfold atDistance in Hin. now apply filter_In in Hin. }
  destruct Hin as [->|Hin]; [lia|].
  apply StronglySorted_inv in Hs. destruct Hs as [_ Hb].
  rewrite List.Forall_forall in Hb. exact (Hb a Hin).
Qed.

(** A sequence sorted by descending distance is determined by its blocks at
    each distance taken in order: the stable sort of a sequence is the only
    sorted sequence that keeps, at every distance, the original order. *)
Lemma sorted_stable_unique l1 l2 :
  StronglySorted notNearer l1 -> StronglySorted notNearer l2 ->
  (forall d, atDistance d l1 = atDistance d l2) -> l1 = l2.
Proof.
  revert l2. induction l1 as [|a l1 IH]; intros l2 H1 H2 H.
  - destruct l2 as [|b l2]; [reflexivity|].
    specialize (H (squaredDistance b)). rewrite atDistance_head in H.
    discriminate.
  - destruct l2 as [|b l2].
    + specialize (H (squaredDistance a)). rewrite atDistance_head in H.
      discriminate.
    + assert (Hab : squaredDistance a = squaredDistance b).
      { apply Z.le_antisymm.
        - eapply head_notNearer; [exact H2|apply H].
        - eapply head_notNearer; [exact H1|symmetry; apply H]. }
      pose proof (H (squaredDistance a)) as Ha.
      rewrite atDistance_head in Ha. rewrite Hab in Ha at 2.
      rewrite atDistance_head in Ha. injection Ha as -> Ha.
      f_equal. apply IH.
      * now apply StronglySorted_inv in H1.
      * now apply StronglySorted_inv in H2.
      * intros d. specialize (H d). unfold atDistance in *.
        cbn [List.filter] in H.
        destruct (squaredDistance b =? d); [now injection H|exact H].
Qed.

(** C2.  The sequence rendered is the world sorted by descending squared
    distance from the origin: the sorted copy holds the same blocks, no
    block comes before a farther one, and the blocks at any one distance
    keep the order they have in the world; the tiles are drawn from this
    copy, in its order.  It is the only sequence with these properties. *)
Theorem C2_sortedWorld_descending_stable (s : State) (σ : Store) :
  let w := contents σ (world s) in
  let (l, σ') := sortedWorld s σ in
  Permutation (contents σ' l) w
  /\ StronglySorted notNearer (contents σ' l)
  /\ (forall d, atDistance d (contents σ' l) = atDistance d w)
  /\ fst (render s σ) = List.map (tileOf (cameraRotation s)) (contents σ' l)
  /\ (forall l', StronglySorted notNearer l' ->
                 (forall d, atDistance d l' = atDistance d w) ->
                 l' = contents σ' l).
Proof.
  cbv zeta. rewrite render_run, sortedWorld_run, contents_insert_eq. cbn [fst].
  split; [apply stable_sort_perm|].
  split; [apply stable_sort_sorted|].
  split; [intros d; apply stable_sort_atDistance|].
  split; [reflexivity|].
  intros l' Hs Hd. apply sorted_stable_unique.
  - exact Hs.
  - apply stable_sort_sorted.
  - intros d. now rewrite stable_sort_atDistance.
Qed.

Lemma C2_sortedWorld_descending_stable_witness :
  let (s, σ) := pageWith grass
                  [Block.mk grass 1 0 0; Block.mk dirt 0 1 0;
                   Block.mk stone 2 0 0; Block.mk wood 0 0 1] in
  let (l, σ') := sortedWorld s σ in
  [Block.mk stone 2 0 0; Block.mk grass 1 0 0; Block.mk dirt 0 1 0;
   Block.mk wood 0 0 1] = contents σ' l.
Proof.
  pose proof (pageWith_contents grass
                [Block.mk grass 1 0 0; Block.mk dirt 0 1 0;
                 Block.mk stone 2 0 0; Block.mk wood 0 0 1]) as H0.
  destruct (pageWith _ _) as [s σ]. destruct H0 as (Hw & _).
  pose proof (C2_sortedWorld_descending_stable s σ) as H. cbv zeta in H.
  destruct (sortedWorld s σ) as [l σ']. destruct H as (_ & _ & _ & _ & H).
  apply H.
  - repeat first [apply SSorted_nil | apply SSorted_cons
                 | apply List.Forall_nil | apply List.Forall_cons];
      unfold notNearer, squaredDistance; cbn; lia.
  - rewrite Hw. intros d. unfold atDistance. cbn [List.filter].
    change (squaredDistance (Block.mk stone 2 0 0)) with 4.
    change (squaredDistance (Block.mk grass 1 0 0)) with 1.
    change (squaredDistance (Block.mk dirt 0 1 0)) with 1.
    change (squaredDistance (Block.mk wood 0 0 1)) with 1.
    destruct (Z.eqb_spec 4 d), (Z.eqb_spec 1 d); try reflexivity; lia.
Defined.

(** ** Pages stay within the data model *)

Lemma clickValue_above selected x y z isRightClick w :
  (isRightClick = true -> 0 <= y + 1) ->
  Forall (fun b => 0 <= Block.y b) w ->
  Forall (fun b => 0 <= Block.y b) (clickValue selected x y z isRightClick w).
Proof.
  intros Hy Hw. unfold clickValue, addBlock.
  destruct isRightClick; cbn [andb].
  - destruct (negb _).
    + apply List.Forall_app. split; [exact Hw|]. constructor; [|constructor].
      now apply Hy.
    + rewrite List.Forall_forall in *. intros b Hb.
      apply removeBlockAt_In in Hb. now apply Hw.
  - rewrite List.Forall_forall in *. intros b Hb.
    apply removeBlockAt_In in Hb. now apply Hw.
Qed.

Lemma handleBlockClick_inDataModel x y z isRightClick s σ :
  (isRightClick = true -> 0 <= y + 1) ->
  inDataModel s σ ->
  let (s', σ') := handleBlockClick x y z isRightClick s σ in inDataModel s' σ'.
Proof.
  intros Hy (Ha & Hsel & Hw). rewrite handleBlockClick_run.
  unfold inDataModel. cbn [world withWorld selectedBlock].
  rewrite contents_insert_eq. split; [|split].
  - unfold allocated. cbn [arrays]. rewrite lookup_insert_eq. eauto.
  - exact Hsel.
  - now apply clickValue_above.
Qed.

Lemma inDataModel_frame s s' σ σ' :
  frame σ σ' -> world s' = world s -> selectedBlock s' <> air ->
  inDataModel s σ -> inDataModel s' σ'.
Proof.
  intros Hf Hw Hsel (Ha & _ & Hy). destruct (Hf _ Ha) as [Ha' E].
  unfold inDataModel. rewrite Hw, E. now repeat split.
Qed.

Lemma inventory_not_air idx item :
  nth_error inventory idx = Some item -> InventoryItem.type item <> air.
Proof.
  do 6 (destruct idx as [|idx]; [intros [= <-]; discriminate|]).
  destruct idx; discriminate.
Qed.

Lemma Math_max_0_nonneg ys : 0 <= Math_max_0 ys.
Proof. rewrite Math_max_0_maximumOr. lia. Qed.

Section DataModel.

Variable random : nat -> R.

Lemma onTile_inDataModel idx isRightClick s σ :
  inDataModel s σ ->
  let (s', σ') := onTile idx isRightClick s σ in inDataModel s' σ'.
Proof.
  intros H. unfold onTile, bind.
  pose proof (render_frame s σ) as Hf. rewrite render_run in *. cbn [snd] in Hf.
  set (σ1 := mkStore _ _) in *.
  assert (H1 : inDataModel s σ1)
    by (apply (inDataModel_frame s s σ σ1); [exact Hf|reflexivity|apply H|exact H]).
  destruct (nth_error _ idx) as [[block pos]|] eqn:E; [|exact H1].
  apply handleBlockClick_inDataModel; [|exact H1].
  intros _. apply nth_error_In in E. apply in_map_iff in E.
  destruct E as (b & [= <- _] & Hb).
  apply (Permutation_in _ (stable_sort_perm byDistance _)) in Hb.
  destruct H as (_ & _ & Hy). rewrite List.Forall_forall in Hy.
  specialize (Hy _ Hb). lia.
Qed.

Lemma step_inDataModel e s σ :
  inDataModel s σ ->
  let (s', σ') := step random e s σ in inDataModel s' σ'.
Proof.
  intros H. pose proof H as (Ha & Hsel & Hy).
  destruct e; cbn [step];
    try (apply (inDataModel_frame s _ σ σ);
         [apply frame_refl|reflexivity|exact Hsel|exact H]).
  - pose proof (mount_generated random s σ) as Hm. cbn [step] in Hm.
    destruct (generateWorld random s σ) as [s' σ'].
    destruct Hm as (Ha' & Hs' & Hg). split; [exact Ha'|]. split; [congruence|].
    eapply Forall_impl; [exact Hg|]. intros b Hb. apply generated_y in Hb. lia.
  - unfold bind, ret. pose proof (render_frame s σ) as Hf.
    destruct (render s σ) as [tiles σ1].
    now apply (inDataModel_frame s s σ σ1).
  - unfold handlePointerMove. destruct (isDragging s); [|exact H].
    apply (inDataModel_frame s _ σ σ);
      [apply frame_refl|reflexivity|exact Hsel|exact H].
  - now apply onTile_inDataModel.
  - now apply onTile_inDataModel.
  - destruct (showInventory s), (nth_error inventory idx) as [item|] eqn:E;
      try exact H.
    apply (inDataModel_frame s _ σ σ); [apply frame_refl|reflexivity| |exact H].
    now apply (inventory_not_air idx).
  - unfold destroyOnClick, destroyAt, bind, Array_find, bind, Array_read, ret.
    destruct (List.find _ _) as [b|]; [|exact H].
    apply handleBlockClick_inDataModel; [discriminate|exact H].
  - unfold buildOnClick, placeOnTopOf, bind, Array_read.
    apply handleBlockClick_inDataModel; [|exact H].
    intros _. pose proof (Math_max_0_nonneg
      (List.map Block.y (List.filter (fun b =>
         (Block.x b =? WORLD_SIZE / 2) && (Block.z b =? WORLD_SIZE / 2))
         (contents σ (world s))))). lia.
Qed.

(** Every page is within the data model. *)
Lemma page_inDataModel events :
  let (s, σ) := page random events in inDataModel s σ.
Proof.
  unfold page, bind.
  assert (H0 : let (s, σ) := initialState emptyStore in inDataModel s σ).
  { unfold initialState, bind, ret. rewrite Array_alloc_run.
    unfold inDataModel. cbn [world selectedBlock]. rewrite contents_insert_eq.
    split; [|split; [discriminate|constructor]].
    unfold allocated. cbn [arrays]. rewrite lookup_insert_eq. eauto. }
  destruct (initialState emptyStore) as [s σ]. revert s σ H0.
  induction events as [|e events IH]; intros s σ H; cbn [run].
  - exact H.
  - unfold bind. pose proof (step_inDataModel e s σ H) as H1.
    destruct (step random e s σ) as [s1 σ1]. now apply IH.
Qed.

End DataModel.

(** ** Building on top of a column, on every page *)







(** ** Renders are not observable *)

Lemma sameView_sym p1 p2 : sameView p1 p2 -> sameView p2 p1.
Proof.
  destruct p1 as [s1 σ1], p2 as [s2 σ2]. unfold sameView.
  intros (? & ? & ? & ? & ?). repeat split; congruence.
Qed.

Lemma sameView_trans p1 p2 p3 : sameView p1 p2 -> sameView p2 p3 -> sameView p1 p3.
Proof.
  destruct p1 as [s1 σ1], p2 as [s2 σ2], p3 as [s3 σ3]. unfold sameView.
  intros (? & ? & ? & ? & ?) (? & ? & ? & ? & ?). repeat split; congruence.
Qed.

Lemma sameView_fields s1 σ1 s2 σ2 :
  sameView (s1, σ1) (s2, σ2) ->
  selectedBlock s1 = selectedBlock s2 /\ showInventory s1 = showInventory s2
  /\ cameraRotation s1 = cameraRotation s2.
Proof.
  intros (E & _). unfold withWorld in E. injection E. intros. repeat split; congruence.
Qed.

(** A state update that ignores the world array keeps two pages alike. *)
Lemma sameView_update (f : State -> State) s1 σ1 s2 σ2 :
  (forall s, world (f s) = world s) ->
  (forall s s', withWorld 1%positive s = withWorld 1%positive s' ->
                withWorld 1%positive (f s) = withWorld 1%positive (f s')) ->
  sameView (s1, σ1) (s2, σ2) -> sameView (f s1, σ1) (f s2, σ2).
Proof.
  intros Hw Hf (E & Hc & Hn & Ha1 & Ha2). unfold sameView. rewrite !Hw.
  split; [now apply Hf|]. now repeat split.
Qed.

Lemma sameView_frame s1 σ1 σ1' s2 σ2 σ2' :
  frame σ1 σ1' -> frame σ2 σ2' ->
  randomCalls σ1' = randomCalls σ1 -> randomCalls σ2' = randomCalls σ2 ->
  sameView (s1, σ1) (s2, σ2) -> sameView (s1, σ1') (s2, σ2').
Proof.
  intros Hf1 Hf2 Hn1 Hn2 (E & Hc & Hn & Ha1 & Ha2).
  destruct (Hf1 _ Ha1) as [Ha1' E1]. destruct (Hf2 _ Ha2) as [Ha2' E2].
  unfold sameView. repeat split; congruence.
Qed.

Lemma handleBlockClick_sameView x y z isRightClick s1 σ1 s2 σ2 :
  sameView (s1, σ1) (s2, σ2) ->
  sameView (handleBlockClick x y z isRightClick s1 σ1)
           (handleBlockClick x y z isRightClick s2 σ2).
Proof.
  intros H. pose proof (sameView_fields _ _ _ _ H) as (Hsel & _).
  destruct H as (E & Hc & Hn & Ha1 & Ha2).
  rewrite !handleBlockClick_run. unfold sameView. cbn [world withWorld randomCalls].
  rewrite !contents_insert_eq. split; [exact E|]. split; [congruence|].
  split; [exact Hn|].
  split; unfold allocated; cbn [arrays]; rewrite lookup_insert_eq; eauto.
Qed.

Lemma render_sameView s1 σ1 s2 σ2 :
  sameView (s1, σ1) (s2, σ2) ->
  fst (render s1 σ1) = fst (render s2 σ2)
  /\ sameView (s1, snd (render s1 σ1)) (s2, snd (render s2 σ2)).
Proof.
  intros H. pose proof (sameView_fields _ _ _ _ H) as (_ & _ & Hrot).
  split.
  - rewrite !render_run. cbn [fst]. destruct H as (_ & Hc & _). congruence.
  - apply (sameView_frame s1 σ1 _ s2 σ2); try apply render_frame;
      try (rewrite render_run; reflexivity). exact H.
Qed.

Section Renders.

Variable random : nat -> R.

Lemma step_allocated e s σ :
  allocated σ (world s) ->
  let (s', σ') := step random e s σ in allocated σ' (world s').
Proof.
  intros Hw.
  assert (e = Mount \/ e <> Mount) as [-> | He]
    by (destruct e; (now left) || (right; discriminate)).
  - pose proof (mount_types random s σ) as H.
    destruct (step random Mount s σ) as [s' σ']. exact (proj1 H).
  - pose proof (step_edit random e s σ He Hw) as H.
    destruct (step random e s σ) as [s' σ']. exact (proj1 (proj2 H)).
Qed.

Lemma generateWorld_sameView s1 σ1 s2 σ2 :
  sameView (s1, σ1) (s2, σ2) ->
  sameView (generateWorld random s1 σ1) (generateWorld random s2 σ2).
Proof.
  intros (E & Hc & Hn & Ha1 & Ha2). rewrite !generateWorld_run. cbv zeta.
  unfold sameView. cbn [world withWorld randomCalls].
  rewrite !contents_insert_eq, Hn. split; [exact E|].
  do 2 (split; [reflexivity|]).
  split; unfold allocated; cbn [arrays]; rewrite lookup_insert_eq; eauto.
Qed.

Lemma onTile_sameView idx isRightClick s1 σ1 s2 σ2 :
  sameView (s1, σ1) (s2, σ2) ->
  sameView (onTile idx isRightClick s1 σ1) (onTile idx isRightClick s2 σ2).
Proof.
  intros H. unfold onTile, bind.
  destruct (render_sameView _ _ _ _ H) as [Ht Hv].
  destruct (render s1 σ1) as [tiles1 σ1'], (render s2 σ2) as [tiles2 σ2'].
  cbn [fst snd] in Ht, Hv. subst tiles2.
  destruct (nth_error tiles1 idx) as [[block pos]|].
  - now apply handleBlockClick_sameView.
  - exact Hv.
Qed.

Lemma destroyAt_sameView cx cz s1 σ1 s2 σ2 :
  sameView (s1, σ1) (s2, σ2) ->
  sameView (destroyAt cx cz s1 σ1) (destroyAt cx cz s2 σ2).
Proof.
  intros H. unfold destroyAt, bind, Array_find, bind, Array_read, ret.
  replace (contents σ2 (world s2)) with (contents σ1 (world s1))
    by (destruct H as (_ & Hc & _); exact Hc).
  destruct (List.find _ _) as [b|].
  - now apply handleBlockClick_sameView.
  - exact H.
Qed.

Lemma placeOnTopOf_sameView cx cz s1 σ1 s2 σ2 :
  sameView (s1, σ1) (s2, σ2) ->
  sameView (placeOnTopOf cx cz s1 σ1) (placeOnTopOf cx cz s2 σ2).
Proof.
  intros H. rewrite !placeOnTopOf_run.
  replace (contents σ2 (world s2)) with (contents σ1 (world s1))
    by (destruct H as (_ & Hc & _); exact Hc).
  now apply handleBlockClick_sameView.
Qed.

Lemma step_sameView e s1 σ1 s2 σ2 :
  sameView (s1, σ1) (s2, σ2) ->
  sameView (step random e s1 σ1) (step random e s2 σ2).
Proof.
  intros H. destruct e; cbn [step].
  - now apply generateWorld_sameView.
  - unfold bind, ret. destruct (render_sameView _ _ _ _ H) as [_ Hv].
    destruct (render s1 σ1), (render s2 σ2). exact Hv.
  - apply (sameView_update (handlePointerDown clientX clientY)); [easy| |exact H].
    intros [] [] E; injection E; intros; subst; reflexivity.
  - apply (sameView_update (handlePointerMove clientX clientY)); [| |exact H].
    + intros s. unfold handlePointerMove. now destruct (isDragging s).
    + intros [] [] E; injection E; intros; subst.
      unfold handlePointerMove; cbn. now destruct isDragging1.
  - apply (sameView_update handlePointerUp); [easy| |exact H].
    intros [] [] E; injection E; intros; subst; reflexivity.
  - apply (sameView_update handlePointerUp); [easy| |exact H].
    intros [] [] E; injection E; intros; subst; reflexivity.
  - now apply onTile_sameView.
  - now apply onTile_sameView.
  - apply (sameView_update (setGameMode v)); [easy| |exact H].
    intros [] [] E; injection E; intros; subst; reflexivity.
  - apply (sameView_update (fun s => setShowInventory (negb (showInventory s)) s));
      [easy| |exact H].
    intros [] [] E; injection E; intros; subst; reflexivity.
  - pose proof (sameView_fields _ _ _ _ H) as (_ & Hshow & _). rewrite <- Hshow.
    destruct (showInventory s1), (nth_error inventory idx) as [item|];
      try exact H.
    apply (sameView_update (fun s => setShowInventory false
                                       (setSelectedBlock (InventoryItem.type item) s)));
      [easy| |exact H].
    intros [] [] E; injection E; intros; subst; reflexivity.
  - now apply destroyAt_sameView.
  - now apply placeOnTopOf_sameView.
Qed.

Lemma run_sameView events p1 p2 :
  sameView p1 p2 ->
  sameView (run random events (fst p1) (snd p1))
           (run random events (fst p2) (snd p2)).
Proof.
  revert p1 p2. induction events as [|e events IH]; intros [s1 σ1] [s2 σ2] H;
    cbn [run fst snd].
  - exact H.
  - unfold bind. pose proof (step_sameView e _ _ _ _ H) as H'.
    destruct (step random e s1 σ1) as [s1' σ1'].
    destruct (step random e s2 σ2) as [s2' σ2'].
    exact (IH (s1', σ1') (s2', σ2') H').
Qed.

Lemma sameView_refl s σ : allocated σ (world s) -> sameView (s, σ) (s, σ).
Proof. intros H. unfold sameView. now repeat split. Qed.

(** Dropping the renders from a sequence of events changes neither the
    state nor the contents of the world it ends with. *)
Lemma run_without_renders events s σ :
  allocated σ (world s) ->
  sameView (run random events s σ)
           (run random (List.filter (fun e => negb (isRender e)) events) s σ).
Proof.
  revert s σ. induction events as [|e events IH]; intros s σ Hw.
  - now apply sameView_refl.
  - assert (Hstep : forall s1 σ1, step random e s σ = (s1, σ1) ->
                                  allocated σ1 (world s1)).
    { intros s1 σ1 E. pose proof (step_allocated e s σ Hw) as H.
      now rewrite E in H. }
    destruct e; cbn [List.filter isRender negb];
      try (cbn [run]; unfold bind;
           destruct (step random _ s σ) as [s1 σ1] eqn:E;
           apply IH; now apply (Hstep s1 σ1)).
    cbn [run]. unfold bind. destruct (step random Render s σ) as [s1 σ1] eqn:E.
    eapply sameView_trans; [apply IH; now apply (Hstep s1 σ1)|].
    apply (run_sameView _ (s1, σ1) (s, σ)).
    cbn [step] in E. unfold bind, ret in E.
    pose proof (render_frame s σ) as Hf.
    assert (Hn : randomCalls (snd (render s σ)) = randomCalls σ)
      by now rewrite render_run.
    destruct (render s σ) as [tiles σ']. injection E as <- <-.
    apply (sameView_frame s σ σ' s σ σ);
      [exact Hf|apply frame_refl|exact Hn|reflexivity|now apply sameView_refl].
Qed.

End Renders.

(** ** The stored world is only ever edited, never sorted *)

Lemma editedFrom_first w w1 w2 :
  oneEdit w w1 -> editedFrom w1 w2 -> editedFrom w w2.
Proof.
  intros H1 H2. induction H2 as [|w' w'' _ IH He].
  - eapply edited_more; [apply edited_none|exact H1].
  - eapply edited_more; [exact IH|exact He].
Qed.

Section StoredWorld.

Variable random : nat -> R.

Lemma run_renders n s σ :
  allocated σ (world s) ->
  let (s', σ') := run random (repeat Render n) s σ in
  s' = s /\ frame σ σ'.
Proof.
  revert σ. induction n as [|n IH]; intros σ Hw; cbn [repeat run].
  - split; [reflexivity|apply frame_refl].
  - unfold bind. cbn [step]. unfold bind, ret.
    pose proof (render_frame s σ) as Hf.
    destruct (render s σ) as [tiles σ1]. cbn [snd] in Hf.
    specialize (IH σ1 (proj1 (Hf _ Hw))).
    destruct (run random (repeat Render n) s σ1) as [s' σ'].
    destruct IH as [-> Hf']. split; [reflexivity|].
    now apply (frame_trans σ σ1 σ').
Qed.

Lemma run_edits events s σ :
  ~ In Mount events -> allocated σ (world s) ->
  let (s', σ') := run random events s σ in
  frame σ σ' /\ editedFrom (contents σ (world s)) (contents σ' (world s')).
Proof.
  revert s σ. induction events as [|e events IH]; intros s σ Hm Hw; cbn [run].
  - split; [apply frame_refl|apply edited_none].
  - unfold bind.
    assert (He : e <> Mount) by (intros ->; apply Hm; now left).
    pose proof (step_edit random e s σ He Hw) as H.
    destruct (step random e s σ) as [s1 σ1]. destruct H as (Hf & Ha & Hed).
    assert (Hm' : ~ In Mount events) by (intros Hin; apply Hm; now right).
    specialize (IH s1 σ1 Hm' Ha).
    destruct (run random events s1 σ1) as [s' σ']. destruct IH as [Hf' Hed'].
    split; [now apply (frame_trans σ σ1 σ')|].
    now apply (editedFrom_first _ _ _ Hed).
Qed.

(** C10.  On a page whose world array is allocated: the depth sort works on
    a new array, so the stored world and every other stored array keep
    their contents; any number of renders leaves the state as it is; a
    click stores the old sequence with one block appended at its end, or
    with the blocks at the clicked place filtered out, and modifies no
    stored array; after any events but the mount effect the world is the
    initial sequence edited in these two ways only; and dropping the
    renders from any sequence of events leads to the same state and the
    same world contents. *)
Theorem C10_sort_never_touches_stored_world (s : State) (σ : Store) :
  allocated σ (world s) ->
  (let (l, σ') := sortedWorld s σ in
   l <> world s /\ frame σ σ'
   /\ contents σ' (world s) = contents σ (world s))
  /\ (forall n,
      let (s', σ') := run random (repeat Render n) s σ in
      s' = s /\ frame σ σ' /\ contents σ' (world s') = contents σ (world s))
  /\ (forall x y z isRightClick,
      let (s', σ') := handleBlockClick x y z isRightClick s σ in
      frame σ σ'
      /\ (isRightClick = true /\ selectedBlock s <> air ->
          contents σ' (world s')
          = contents σ (world s) ++ [Block.mk (selectedBlock s) x (y + 1) z])
      /\ (isRightClick = false \/ selectedBlock s = air ->
          contents σ' (world s') = removeBlockAt x y z (contents σ (world s))))
  /\ (forall events, ~ In Mount events ->
      let (s', σ') := run random events s σ in
      frame σ σ' /\ editedFrom (contents σ (world s)) (contents σ' (world s')))
  /\ (forall events,
      sameView (run random events s σ)
        (run random (List.filter (fun e => negb (isRender e)) events) s σ)).
Proof.
  intros Hw. split; [|split; [|split; [|split]]].
  - pose proof (sortedWorld_frame s σ) as Hf. rewrite sortedWorld_run in *.
    cbn [snd] in Hf. split; [|split].
    + intros E. apply (fresh_loc_fresh σ). now rewrite E.
    + exact Hf.
    + exact (proj2 (Hf _ Hw)).
  - intros n. pose proof (run_renders n s σ Hw) as H.
    destruct (run random (repeat Render n) s σ) as [s' σ'].
    destruct H as [-> Hf]. split; [reflexivity|]. split; [exact Hf|].
    exact (proj2 (Hf _ Hw)).
  - intros x y z isRightClick.
    pose proof (handleBlockClick_contents x y z isRightClick s σ) as Hc.
    pose proof (handleBlockClick_frame x y z isRightClick s σ) as Hf.
    destruct (handleBlockClick x y z isRightClick s σ) as [s' σ'].
    cbn [snd] in Hf. split; [exact Hf|]. rewrite Hc. unfold clickValue.
    split.
    + intros [-> Hair]. now rewrite bool_decide_eq_false_2 by exact Hair.
    + intros [-> | Hair]; [reflexivity|].
      rewrite bool_decide_eq_true_2 by exact Hair. now rewrite andb_false_r.
  - intros events Hm. now apply run_edits.
  - intros events. now apply run_without_renders.
Qed.

End StoredWorld.

Lemma C10_sort_never_touches_stored_world_witness :
  let (s, σ) := pageWith stone [Block.mk grass 0 0 0; Block.mk grass 3 0 3] in
  let (s', σ') := run (fun _ => 0%R) [Render; Render; Render] s σ in
  s' = s
  /\ contents σ' (world s') = [Block.mk grass 0 0 0; Block.mk grass 3 0 3].
Proof.
  pose proof (pageWith_contents stone [Block.mk grass 0 0 0; Block.mk grass 3 0 3])
    as H0.
  destruct (pageWith _ _) as [s σ]. destruct H0 as (Hw & _ & Ha).
  pose proof (C10_sort_never_touches_stored_world (fun _ => 0%R) s σ Ha)
    as (_ & H & _).
  specialize (H 3%nat). cbn [repeat] in H.
  destruct (run _ _ s σ) as [s' σ']. destruct H as (-> & _ & ->).
  now split.
Defined.

(** Two builds, a render and a left click on the first tile drawn (the
    farther of the two blocks), run from a fresh load. *)
Example page_build_build_click :
  let (s, σ) := page (fun _ => 0%R)
                  [BuildClick; BuildClick; Render; TileClick 0] in
  contents σ (world s) = [Block.mk grass 4 1 4].
Proof. reflexivity. Qed.

(** ** The camera drag *)

Local Open Scope R_scope.

Lemma Int_part_unique (n : Z) (r : R) : IZR n <= r < IZR n + 1 -> Int_part r = n.
Proof.
  intros [H1 H2]. destruct (base_Int_part r) as [H3 H4].
  assert (Ha : IZR n < IZR (Int_part r + 1)) by (rewrite plus_IZR; lra).
  assert (Hb : IZR (Int_part r) < IZR (n + 1)) by (rewrite plus_IZR; lra).
  apply lt_IZR in Ha, Hb. lia.
Qed.

(** The truncated quotient is within one of the quotient, on the side of
    zero. *)
Lemma truncate_nonneg r :
  0 <= r -> IZR (truncate r) <= r < IZR (truncate r) + 1.
Proof.
  intros Hr. unfold truncate. destruct (Rle_dec 0 r) as [_|Hn]; [|lra].
  destruct (base_Int_part r). lra.
Qed.

Lemma truncate_neg r :
  r < 0 -> IZR (truncate r) - 1 < r <= IZR (truncate r).
Proof.
  intros Hr. unfold truncate. destruct (Rle_dec 0 r) as [Hp|_]; [lra|].
  rewrite opp_IZR. destruct (base_Int_part (- r)). lra.
Qed.

Lemma js_rem_nonneg a b : 0 <= a -> 0 < b -> 0 <= js_rem a b < b.
Proof.
  intros Ha Hb. unfold js_rem.
  assert (Hq : 0 <= a / b) by (apply Rle_mult_inv_pos; assumption).
  destruct (truncate_nonneg _ Hq) as [H1 H2].
  set (t := IZR (truncate (a / b))) in *.
  assert (E : b * (a / b) = a) by (field; lra).
  split.
  - assert (0 <= b * (a / b - t)) by (apply Rmult_le_pos; lra). lra.
  - assert (b * (a / b - t) < b * 1) by (apply Rmult_lt_compat_l; lra). lra.
Qed.

Lemma js_rem_neg a b : a < 0 -> 0 < b -> - b < js_rem a b <= 0.
Proof.
  intros Ha Hb. unfold js_rem.
  assert (Hq : a / b < 0).
  { unfold Rdiv. replace 0 with (0 * / b) by ring.
    apply Rmult_lt_compat_r; [now apply Rinv_0_lt_compat|exact Ha]. }
  destruct (truncate_neg _ Hq) as [H1 H2].
  set (t := IZR (truncate (a / b))) in *.
  assert (E : b * (a / b) = a) by (field; lra).
  split.
  - assert (b * (-1) < b * (a / b - t)) by (apply Rmult_lt_compat_l; lra). lra.
  - assert (0 <= b * (t - a / b)) by (apply Rmult_le_pos; lra). lra.
Qed.

(** In [[0, b)] the remainder is the number itself. *)
Lemma js_rem_small a b : 0 <= a < b -> js_rem a b = a.
Proof.
  intros [Ha Hb]. unfold js_rem.
  assert (Hq : 0 <= a / b < 1).
  { split; [apply Rle_mult_inv_pos; lra|].
    apply (Rmult_lt_reg_r b); [lra|]. unfold Rdiv.
    rewrite Rmult_assoc, Rinv_l by lra. lra. }
  assert (Ht : truncate (a / b) = 0%Z).
  { unfold truncate. destruct (Rle_dec 0 (a / b)) as [_|Hn]; [|lra].
    apply Int_part_unique. simpl. lra. }
  rewrite Ht. simpl. lra.
Qed.

(** In [(-b, 0)] as well: a negative angle stays negative. *)
Lemma js_rem_small_neg a b : - b < a < 0 -> js_rem a b = a.
Proof.
  intros [Ha Hb]. unfold js_rem.
  assert (Hq : -1 < a / b < 0).
  { split.
    - apply (Rmult_lt_reg_r b); [lra|]. unfold Rdiv.
      rewrite Rmult_assoc, Rinv_l by lra. lra.
    - apply (Rmult_lt_reg_r b); [lra|]. unfold Rdiv.
      rewrite Rmult_assoc, Rinv_l by lra. lra. }
  assert (Ht : truncate (a / b) = 0%Z).
  { unfold truncate. destruct (Rle_dec 0 (a / b)) as [Hp|_]; [lra|].
    rewrite (Int_part_unique 0 (- (a / b))); [reflexivity|]. simpl. lra. }
  rewrite Ht. simpl. lra.
Qed.

Lemma clamp_bounds v : -90 <= Rmax (-90) (Rmin 90 v) <= 90.
Proof.
  unfold Rmax, Rmin.
  destruct (Rle_dec 90 v); destruct (Rle_dec (-90) _); lra.
Qed.

Lemma clamp_inside v : -90 <= v <= 90 -> Rmax (-90) (Rmin 90 v) = v.
Proof.
  intros H. unfold Rmax, Rmin.
  destruct (Rle_dec 90 v); destruct (Rle_dec (-90) _); lra.
Qed.

Lemma clamp_above v : 90 <= v -> Rmax (-90) (Rmin 90 v) = 90.
Proof.
  intros H. unfold Rmax, Rmin.
  destruct (Rle_dec 90 v); destruct (Rle_dec (-90) _); lra.
Qed.

Local Close Scope R_scope.

Section Camera.

Variable random : nat -> R.

Local Open Scope R_scope.


Lemma handleBlockClick_camera x y z isRightClick s σ :
  cameraRotation (fst (handleBlockClick x y z isRightClick s σ)) = cameraRotation s.
Proof. now rewrite handleBlockClick_run. Qed.

(** Only a pointer move changes the camera. *)
Lemma step_camera e s σ :
  (forall cx cy, e <> PointerMove cx cy) ->
  cameraRotation (fst (step random e s σ)) = cameraRotation s.
Proof.
  intros He. destruct e; cbn [step].
  - rewrite generateWorld_run. reflexivity.
  - unfold bind, ret. now destruct (render s σ).
  - reflexivity.
  - now elim (He clientX clientY).
  - reflexivity.
  - reflexivity.
  - unfold onTile, bind. destruct (render s σ) as [tiles σ1].
    destruct (nth_error tiles idx) as [[block pos]|]; [|reflexivity].
    apply handleBlockClick_camera.
  - unfold onTile, bind. destruct (render s σ) as [tiles σ1].
    destruct (nth_error tiles idx) as [[block pos]|]; [|reflexivity].
    apply handleBlockClick_camera.
  - reflexivity.
  - reflexivity.
  - now destruct (showInventory s), (nth_error inventory idx).
  - unfold destroyOnClick, destroyAt, bind, Array_find, bind, Array_read, ret.
    destruct (List.find _ _); [|reflexivity]. apply handleBlockClick_camera.
  - unfold buildOnClick. rewrite placeOnTopOf_run. apply handleBlockClick_camera.
Qed.

Lemma handlePointerMove_camera cx cy s :
  cameraRotation (handlePointerMove cx cy s)
  = if isDragging s
    then dragRotation (cx - Point.x (dragStart s)) (cy - Point.y (dragStart s))
           (cameraRotation s)
    else cameraRotation s.
Proof. unfold handlePointerMove. now destruct (isDragging s). Qed.

(** A property of the camera that every drag establishes or keeps holds on
    every page. *)
Lemma page_camera_invariant (P : Rotation.t -> Prop) :
  P (Rotation.mk 30 45) ->
  (forall dx dy prev, P prev -> P (dragRotation dx dy prev)) ->
  forall events, P (cameraRotation (fst (page random events))).
Proof.
  intros H0 Hdrag events. unfold page, bind.
  change (P (cameraRotation (fst (initialState emptyStore)))) in H0.
  destruct (initialState emptyStore) as [s σ]. cbn [fst] in H0.
  revert s σ H0. induction events as [|e events IH]; intros s σ Hs; cbn [run].
  - exact Hs.
  - unfold bind. destruct (step random e s σ) as [s1 σ1] eqn:E.
    apply IH. change s1 with (fst (s1, σ1)). rewrite <- E.
    destruct e; try (rewrite step_camera; [exact Hs|discriminate]).
    cbn [step ret fst]. rewrite handlePointerMove_camera.
    destruct (isDragging s); [now apply Hdrag|exact Hs].
Qed.

End Camera.

Section CameraProperties.

Variable random : nat -> R.

Local Open Scope R_scope.


(** C4.  The pitch after a drag lies in [[-90, 90]], whatever the pitch
    before and whatever the pointer delta; so does the pitch of every page.
    From 85, a delta of 100 gives exactly 90. *)
Theorem C4_pitch_clamped (deltaX deltaY : R) (prev : Rotation.t) :
  -90 <= Rotation.x (dragRotation deltaX deltaY prev) <= 90
  /\ (forall events,
      -90 <= Rotation.x (cameraRotation (fst (page random events))) <= 90)
  /\ (forall y, Rotation.x (dragRotation deltaX 100 (Rotation.mk 85 y)) = 90).
Proof.
  split; [apply clamp_bounds|]. split.
  - apply (page_camera_invariant random (fun r => -90 <= Rotation.x r <= 90)).
    + cbn. lra.
    + intros dx dy r _. apply clamp_bounds.
  - intros y. cbn [dragRotation Rotation.x]. apply clamp_above. lra.
Qed.




End CameraProperties.

Local Open Scope R_scope.




Local Close Scope R_scope.

(** ** The projector *)

Local Open Scope R_scope.

Lemma Int_part_floor r : IZR (Int_part r) <= r < IZR (Int_part r) + 1.
Proof. destruct (base_Int_part r). lra. Qed.

Lemma Int_part_monotone r1 r2 : r1 <= r2 -> (Int_part r1 <= Int_part r2)%Z.
Proof.
  intros H. destruct (Int_part_floor r1), (Int_part_floor r2).
  assert (Hlt : IZR (Int_part r1) < IZR (Int_part r2 + 1))
    by (rewrite plus_IZR; lra).
  apply lt_IZR in Hlt. lia.
Qed.

Lemma Int_part_IZR n : Int_part (IZR n) = n.
Proof. apply Int_part_unique. lra. Qed.

Local Close Scope R_scope.

(** ** The camera arithmetic on binary64 numbers

    The clamp holds on doubles as it does on the reals, and the drags
    the properties above quote give, on doubles, the very numbers they give
    on the reals: no rounding shows in them. *)

Module Binary64Properties.

Import Floats.

Local Open Scope float_scope.

Lemma SFcompare_antisym (x y : spec_float) :
  SFcompare y x
  = match SFcompare x y with Some c => Some (CompOpp c) | None => None end.
Proof.
  destruct x as [sx|sx| |sx mx ex], y as [sy|sy| |sy my ey]; cbn;
    try reflexivity;
    try (destruct sx; reflexivity); try (destruct sy; reflexivity);
    try (destruct sx, sy; reflexivity).
  destruct sx, sy; try reflexivity;
    rewrite (Z.compare_antisym ex ey);
    destruct (ex ?= ey)%Z; cbn; try reflexivity;
    rewrite (Pos.compare_cont_antisym mx my Eq); reflexivity.
Qed.

Lemma SFcompare_refl (x : spec_float) :
  x <> S754_nan -> SFcompare x x = Some Eq.
Proof.
  destruct x as [s|s| |s m e]; intros H; cbn; try congruence.
  - now destruct s.
  - rewrite Z.compare_refl.
    assert (E : Pos.compare_cont Eq m m = Eq) by apply Pos.compare_refl.
    rewrite E. now destruct s.
Qed.

Lemma is_nan_false (v : float) : is_nan v = false -> Prim2SF v <> S754_nan.
Proof.
  unfold is_nan. rewrite eqb_spec. intros H E. rewrite E in H. discriminate.
Qed.

Lemma SFcompare_some (x y : spec_float) :
  x <> S754_nan -> y <> S754_nan -> exists c, SFcompare x y = Some c.
Proof.
  destruct x, y; intros Hx Hy; try congruence; cbn; eauto.
Qed.

Lemma leb_refl (v : float) : is_nan v = false -> (v <=? v) = true.
Proof.
  intros H. rewrite leb_spec. unfold SFleb.
  now rewrite SFcompare_refl by now apply is_nan_false.
Qed.

Lemma ltb_leb (a b : float) : (a <? b) = true -> (a <=? b) = true.
Proof.
  rewrite ltb_spec, leb_spec. unfold SFltb, SFleb.
  destruct (SFcompare _ _) as [[]|]; congruence.
Qed.

Lemma not_ltb_leb (a b : float) :
  is_nan a = false -> is_nan b = false -> (a <? b) = false -> (b <=? a) = true.
Proof.
  intros Ha%is_nan_false Hb%is_nan_false. rewrite ltb_spec, leb_spec.
  unfold SFltb, SFleb. rewrite (SFcompare_antisym (Prim2SF a) (Prim2SF b)).
  destruct (SFcompare_some _ _ Ha Hb) as [c ->]. destruct c; cbn; congruence.
Qed.

Lemma Math_min_le_l (a b : float) :
  is_nan a = false -> is_nan b = false ->
  (Binary64.Math_min a b <=? a) = true.
Proof.
  intros Ha Hb. unfold Binary64.Math_min. rewrite Ha, Hb. cbn [orb].
  destruct (a <? b) eqn:E1; [now apply leb_refl|].
  destruct (b <? a) eqn:E2; [now apply ltb_leb|].
  destruct (get_sign a); [now apply leb_refl|now apply not_ltb_leb].
Qed.

Lemma Math_min_number (a b : float) :
  is_nan a = false -> is_nan b = false -> is_nan (Binary64.Math_min a b) = false.
Proof.
  intros Ha Hb. unfold Binary64.Math_min. rewrite Ha, Hb. cbn [orb].
  destruct (a <? b), (b <? a), (get_sign a); assumption.
Qed.

Lemma Math_max_ge_l (a b : float) :
  is_nan a = false -> is_nan b = false ->
  (a <=? Binary64.Math_max a b) = true.
Proof.
  intros Ha Hb. unfold Binary64.Math_max. rewrite Ha, Hb. cbn [orb].
  destruct (a <? b) eqn:E1; [now apply ltb_leb|].
  destruct (b <? a) eqn:E2; [now apply leb_refl|].
  destruct (get_sign a); [now apply not_ltb_leb|now apply leb_refl].
Qed.

Lemma Math_max_le (a b c : float) :
  is_nan a = false -> is_nan b = false ->
  (a <=? c) = true -> (b <=? c) = true ->
  (Binary64.Math_max a b <=? c) = true.
Proof.
  intros Ha Hb Hac Hbc. unfold Binary64.Math_max. rewrite Ha, Hb. cbn [orb].
  destruct (a <? b), (b <? a), (get_sign a); assumption.
Qed.

(** X20.  On doubles as on the reals: whenever [x + dy * 0.3] is a number,
    the pitch after the drag lies in [[-90, 90]]. *)
Lemma pitch_clamped_binary64 (deltaX deltaY : float) (prev : float * float) :
  is_nan (fst prev + deltaY * Binary64.sensitivity) = false ->
  let x' := fst (Binary64.dragRotation64 deltaX deltaY prev) in
  (-90 <=? x') = true /\ (x' <=? 90) = true.
Proof.
  intros Hv. cbn [Binary64.dragRotation64 fst].
  set (v := fst prev + deltaY * Binary64.sensitivity) in *.
  assert (H90 : is_nan 90 = false) by reflexivity.
  assert (Hm90 : is_nan (-90) = false) by reflexivity.
  pose proof (Math_min_number 90 v H90 Hv) as Hm.
  split.
  - now apply Math_max_ge_l.
  - apply Math_max_le; try assumption; [reflexivity|now apply Math_min_le_l].
Qed.

Lemma pitch_clamped_binary64_witness :
  let x' := fst (Binary64.dragRotation64 0 100 (85, 45)) in
  (-90 <=? x') = true /\ (x' <=? 90) = true.
Proof.
  apply (pitch_clamped_binary64 0 100 (85, 45)). reflexivity.
Defined.

Example drag_100_0_binary64 :
  Binary64.dragRotation64 100 0 (30, 45) = (30, 75).
Proof. vm_compute. reflexivity. Qed.

Example drag_0_100_from_85_binary64 :
  fst (Binary64.dragRotation64 0 100 (85, 45)) = 90.
Proof. vm_compute. reflexivity. Qed.

Example drag_left_200_binary64 :
  Binary64.dragRotation64 (-200) 0 (30, 45) = (30, -15).
Proof. vm_compute. reflexivity. Qed.

Example remainder_binary64 :
  Binary64.remainder 725.5 360 = 5.5
  /\ Binary64.remainder (-725.5) 360 = (-5.5)
  /\ Binary64.remainder (-360) 360 = (-0).
Proof. vm_compute. repeat split; reflexivity. Qed.

Example drag_1200_0_binary64 :
  Binary64.dragRotation64 1200 0 (30, 45) = (30, 45).
Proof. vm_compute. reflexivity. Qed.

Example drag_left_1500_binary64 :
  Binary64.dragRotation64 (-1500) 0 (30, 45) = (30, -45).
Proof. vm_compute. reflexivity. Qed.

(** ** The projector on binary64 numbers *)

Local Open Scope Z_scope.

Lemma digits2_pos_bounds (m : positive) :
  2 ^ (Z.pos (digits2_pos m) - 1) <= Z.pos m < 2 ^ Z.pos (digits2_pos m).
Proof.
  induction m as [m IH | m IH |]; cbn [digits2_pos].
  - rewrite Pos2Z.inj_succ. change (Z.pos m~1) with (2 * Z.pos m + 1).
    replace (Z.succ (Z.pos (digits2_pos m)) - 1)
      with (Z.succ (Z.pos (digits2_pos m) - 1)) by lia.
    rewrite !Z.pow_succ_r by lia.
    generalize dependent (2 ^ (Z.pos (digits2_pos m) - 1)).
    generalize (2 ^ Z.pos (digits2_pos m)). intros; lia.
  - rewrite Pos2Z.inj_succ. change (Z.pos m~0) with (2 * Z.pos m).
    replace (Z.succ (Z.pos (digits2_pos m)) - 1)
      with (Z.succ (Z.pos (digits2_pos m) - 1)) by lia.
    rewrite !Z.pow_succ_r by lia.
    generalize dependent (2 ^ (Z.pos (digits2_pos m) - 1)).
    generalize (2 ^ Z.pos (digits2_pos m)). intros; lia.
  - cbn. lia.
Qed.

Lemma digits2_pos_unique (m : positive) (d : Z) :
  2 ^ (d - 1) <= Z.pos m < 2 ^ d -> Z.pos (digits2_pos m) = d.
Proof.
  intros [H1 H2]. pose proof (digits2_pos_bounds m) as [H3 H4].
  set (d' := Z.pos (digits2_pos m)) in *.
  assert (Hd' : 0 < d') by (unfold d'; lia).
  assert (Hd : 0 < d).
  { destruct (Z.lt_ge_cases 0 d) as [|Hn]; [assumption|].
    assert (2 ^ d <= 2 ^ 0) by (apply Z.pow_le_mono_r; lia).
    cbn in *. lia. }
  assert (d - 1 < d') by (apply (Z.pow_lt_mono_r_iff 2); lia).
  assert (d' - 1 < d) by (apply (Z.pow_lt_mono_r_iff 2); lia).
  lia.
Qed.

(** The mantissa built for an integer of at most 53 digits has 53 digits. *)
Lemma shifted_mantissa (m : positive) :
  Z.pos m < 2 ^ prec ->
  let d := Z.pos (digits2_pos m) in
  d <= prec /\ 0 < 2 ^ (prec - d)
  /\ Z.pos (Z.to_pos (Z.pos m * 2 ^ (prec - d))) = Z.pos m * 2 ^ (prec - d)
  /\ Z.pos (digits2_pos (Z.to_pos (Z.pos m * 2 ^ (prec - d)))) = prec.
Proof.
  intros Hm. cbv zeta. pose proof (digits2_pos_bounds m) as [H1 H2].
  set (d := Z.pos (digits2_pos m)) in *.
  assert (Hd : 0 < d) by (unfold d; lia).
  assert (Hd53 : d <= prec).
  { destruct (Z.le_gt_cases d prec) as [|Hgt]; [assumption|].
    assert (2 ^ prec <= 2 ^ (d - 1)) by (apply Z.pow_le_mono_r; lia). lia. }
  assert (Hp : 0 < 2 ^ (prec - d)) by (apply Z.pow_pos_nonneg; lia).
  assert (Hid : Z.pos (Z.to_pos (Z.pos m * 2 ^ (prec - d)))
                = Z.pos m * 2 ^ (prec - d)) by (apply Z2Pos.id; lia).
  split; [exact Hd53|]. split; [exact Hp|]. split; [exact Hid|].
  apply digits2_pos_unique. rewrite Hid.
  assert (E1 : 2 ^ (prec - 1) = 2 ^ (d - 1) * 2 ^ (prec - d))
    by (rewrite <- Z.pow_add_r by lia; f_equal; lia).
  assert (E2 : 2 ^ prec = 2 ^ d * 2 ^ (prec - d))
    by (rewrite <- Z.pow_add_r by lia; f_equal; lia).
  rewrite E1, E2.
  split; [apply Z.mul_le_mono_nonneg_r; lia | apply Z.mul_lt_mono_pos_r; lia].
Qed.

Lemma SFofZ_valid (n : Z) :
  Z.abs n < 2 ^ prec -> valid_binary (Binary64.SFofZ n) = true.
Proof.
  intros Hn.
  assert (H : forall m : positive, Z.pos m < 2 ^ prec ->
            bounded prec emax
              (Z.to_pos (Z.pos m * 2 ^ (prec - Z.pos (digits2_pos m))))
              (Z.pos (digits2_pos m) - prec) = true).
  { intros m Hm. destruct (shifted_mantissa m Hm) as (Hd & _ & _ & Hdig).
    unfold bounded, canonical_mantissa. rewrite Hdig.
    assert (0 < Z.pos (digits2_pos m)) by lia.
    unfold fexp, emin. change prec with 53 in *. change emax with 1024.
    apply andb_true_intro. split; [apply Z.eqb_eq | apply Z.leb_le]; lia. }
  destruct n as [|m|m]; cbn [Binary64.SFofZ valid_binary]; [reflexivity| |];
    apply H; exact Hn.
Qed.

Lemma SFofZ_real (n : Z) :
  Z.abs n < 2 ^ prec -> Binary64.SF2R (Binary64.SFofZ n) = IZR n.
Proof.
  intros Hn.
  assert (H : forall (s : bool) (m : positive), Z.pos m < 2 ^ prec ->
            Binary64.SF2R
              (S754_finite s
                 (Z.to_pos (Z.pos m * 2 ^ (prec - Z.pos (digits2_pos m))))
                 (Z.pos (digits2_pos m) - prec))
            = IZR (if s then Z.neg m else Z.pos m)).
  { intros s m Hm. destruct (shifted_mantissa m Hm) as (Hd & Hp & Hid & _).
    set (d := Z.pos (digits2_pos m)) in *.
    assert (HM : (if s then Z.neg (Z.to_pos (Z.pos m * 2 ^ (prec - d)))
                  else Z.pos (Z.to_pos (Z.pos m * 2 ^ (prec - d))))
                 = (if s then Z.neg m else Z.pos m) * 2 ^ (prec - d)).
    { destruct s; [|exact Hid]. rewrite <- !Pos2Z.opp_pos, Hid. lia. }
    cbn [Binary64.SF2R]. rewrite HM.
    destruct (0 <=? d - prec) eqn:E.
    - apply Z.leb_le in E. replace (d - prec) with 0 by lia.
      replace (prec - d) with 0 by lia. f_equal. cbn. lia.
    - replace (- (d - prec)) with (prec - d) by lia.
      rewrite mult_IZR. field. apply not_0_IZR. lia. }
  destruct n as [|m|m]; cbn [Binary64.SFofZ]; [reflexivity| |].
  - apply (H false). exact Hn.
  - apply (H true). exact Hn.
Qed.

Lemma valid_mantissa_bound s m e :
  valid_binary (S754_finite s m e) = true -> Z.pos m < 2 ^ prec.
Proof.
  cbn [valid_binary].
  unfold SpecFloat.valid_binary, bounded, canonical_mantissa, fexp.
  intros H. apply andb_prop in H. destruct H as [H _]. apply Z.eqb_eq in H.
  pose proof (digits2_pos_bounds m) as [_ H2].
  assert (Hd : Z.pos (digits2_pos m) <= prec) by lia.
  assert (2 ^ Z.pos (digits2_pos m) <= 2 ^ prec)
    by (apply Z.pow_le_mono_r; lia).
  lia.
Qed.

Lemma floor_quotient_bound (M k : Z) :
  0 < k -> Z.abs (M / 2 ^ k) <= Z.abs M.
Proof.
  intros Hk. assert (HD : 2 <= 2 ^ k).
  { change 2 with (2 ^ 1) at 1. apply Z.pow_le_mono_r; lia. }
  destruct (Z.le_gt_cases 0 M) as [HM | HM].
  - assert (0 <= M / 2 ^ k) by (apply Z.div_pos; lia).
    assert (M / 2 ^ k <= M) by (apply Z.div_le_upper_bound; nia).
    lia.
  - assert (M / 2 ^ k < 0) by (apply Z.div_lt_upper_bound; lia).
    assert (M <= M / 2 ^ k) by (apply Z.div_le_lower_bound; nia).
    lia.
Qed.

Lemma SFfloor_valid f :
  valid_binary f = true -> valid_binary (Binary64.SFfloor f) = true.
Proof.
  destruct f as [| | |s m e]; try (intros; assumption).
  intros Hv. cbn [Binary64.SFfloor]. destruct (0 <=? e) eqn:E; [exact Hv|].
  apply Z.leb_gt in E. apply SFofZ_valid.
  pose proof (valid_mantissa_bound s m e Hv) as Hm.
  pose proof (floor_quotient_bound (if s then Z.neg m else Z.pos m) (- e)
                ltac:(lia)) as Hq.
  destruct s; cbn [Z.abs] in Hq; lia.
Qed.

Lemma Math_floor_spec v :
  Prim2SF (Binary64.Math_floor v) = Binary64.SFfloor (Prim2SF v).
Proof.
  unfold Binary64.Math_floor.
  apply Prim2SF_SF2Prim, SFfloor_valid, Prim2SF_valid.
Qed.

Local Open Scope R_scope.

(** The floor of a double that is a number is the greatest integer not
    above it. *)
Lemma Math_floor_real v :
  Binary64.finite v = true ->
  exists n : Z,
    Binary64.real (Binary64.Math_floor v) = IZR n
    /\ IZR n <= Binary64.real v < IZR n + 1
    /\ Binary64.finite (Binary64.Math_floor v) = true.
Proof.
  unfold Binary64.finite, Binary64.real. rewrite Math_floor_spec.
  pose proof (Prim2SF_valid v) as Hv.
  destruct (Prim2SF v) as [s0| | |s m e]; try discriminate; intros _.
  - exists 0%Z. cbn. split; [reflexivity|]. split; [lra|reflexivity].
  - cbn [Binary64.SFfloor]. destruct (0 <=? e)%Z eqn:E.
    + exists ((if s then Z.neg m else Z.pos m) * 2 ^ e)%Z.
      cbn [Binary64.SF2R]. rewrite E.
      split; [reflexivity|]. split; [lra|reflexivity].
    + apply Z.leb_gt in E.
      set (M := if s then Z.neg m else Z.pos m).
      set (D := (2 ^ (- e))%Z).
      assert (HD : (0 < D)%Z) by (apply Z.pow_pos_nonneg; lia).
      pose proof (valid_mantissa_bound s m e Hv) as Hm.
      pose proof (floor_quotient_bound M (- e) ltac:(lia)) as Hq. fold D in Hq.
      assert (Hn : (Z.abs (M / D) < 2 ^ prec)%Z)
        by (unfold M in *; destruct s; cbn [Z.abs] in *; lia).
      exists (M / D)%Z. rewrite (SFofZ_real _ Hn).
      split; [reflexivity|]. split.
      * cbn [Binary64.SF2R]. fold M.
        replace (0 <=? e)%Z with false by (symmetry; apply Z.leb_gt; lia).
        fold D.
        pose proof (Z.mul_div_le M D HD) as H1.
        pose proof (Z.mul_succ_div_gt M D HD) as H2.
        apply IZR_le in H1. apply IZR_lt in H2.
        rewrite mult_IZR in H1, H2. rewrite succ_IZR in H2.
        assert (HDr : 0 < IZR D) by now apply (IZR_lt 0).
        set (q := IZR M / IZR D).
        assert (Eq : IZR M = q * IZR D) by (unfold q; field; lra).
        rewrite Eq in H1, H2. split; nra.
      * destruct (M / D)%Z; reflexivity.
Qed.

Lemma Math_floor_not_finite v :
  Binary64.finite v = false -> Binary64.Math_floor v = v.
Proof.
  unfold Binary64.finite, Binary64.Math_floor. intros H.
  rewrite <- (SF2Prim_Prim2SF v) at 2.
  destruct (Prim2SF v); try discriminate; reflexivity.
Qed.

Local Close Scope R_scope.
Local Close Scope Z_scope.

Section Projection.

Variables Math_cos Math_sin : float -> float.

Local Open Scope R_scope.

(** C1, as amended.  For a block at [(x, y, z)] and a camera at [(rx, ry)]
    degrees, on binary64 numbers and whatever values the implementation
    gives [Math.cos] and [Math.sin]: the projector takes the centred
    position [(x * 40 - 160, - (y * 40), z * 40 - 160)], rotates [(px, pz)]
    by the cosine and sine of [ry] (yaw) and then [(py, z1)] by those of
    [rx] (pitch), and returns the rotated [x] and [y] plus 300 and, as the
    paint-order key, [Math.floor] of 1000 minus the final depth.  When
    1000 minus the depth is a number, the key is the greatest integer not
    above it: an integer, not above it and less than 1 below it; it is 1000
    minus the depth itself exactly when that is an integer; and it does not
    decrease when that number grows.  When 1000 minus the depth is not a
    number (NaN or an infinity), it is returned as it is. *)
Theorem C1_projection (rotation : float * float) (x y z : float) :
  let cosX := Math_cos (fst rotation * Binary64.Math_PI / 180)%float in
  let sinX := Math_sin (fst rotation * Binary64.Math_PI / 180)%float in
  let cosY := Math_cos (snd rotation * Binary64.Math_PI / 180)%float in
  let sinY := Math_sin (snd rotation * Binary64.Math_PI / 180)%float in
  let '(px, py, pz) := Binary64.centred x y z in
  let (x1, z1) := Binary64.yaw cosY sinY (px, pz) in
  let (y1, z2) := Binary64.pitch cosX sinX (py, z1) in
  let pos := Binary64.get3DPosition64 Math_cos Math_sin rotation x y z in
  let key := Binary64.Position.zIndex pos in
  (px = x * 40 - 160 /\ py = - (y * 40) /\ pz = z * 40 - 160)%float
  /\ (x1 = px * cosY + pz * sinY /\ z1 = - px * sinY + pz * cosY)%float
  /\ (y1 = py * cosX - z1 * sinX /\ z2 = py * sinX + z1 * cosX)%float
  /\ z2 = Binary64.finalDepth Math_cos Math_sin rotation x y z
  /\ Binary64.Position.left pos = (x1 + 300)%float
  /\ Binary64.Position.top pos = (y1 + 300)%float
  /\ key = Binary64.Math_floor (1000 - z2)%float
  /\ (Binary64.finite (1000 - z2)%float = true ->
      Binary64.finite key = true
      /\ (exists n : Z, Binary64.real key = IZR n)
      /\ Binary64.real key <= Binary64.real (1000 - z2)%float
         < Binary64.real key + 1
      /\ (forall n : Z,
          IZR n <= Binary64.real (1000 - z2)%float -> IZR n <= Binary64.real key)
      /\ (Binary64.real key = Binary64.real (1000 - z2)%float
          <-> exists n : Z, Binary64.real (1000 - z2)%float = IZR n)
      /\ (key = (1000 - z2)%float ->
          exists n : Z, Binary64.real (1000 - z2)%float = IZR n)
      /\ (forall v : float,
          Binary64.finite v = true ->
          Binary64.real v <= Binary64.real (1000 - z2)%float ->
          Binary64.real (Binary64.Math_floor v) <= Binary64.real key))
  /\ (Binary64.finite (1000 - z2)%float = false -> key = (1000 - z2)%float).
Proof.
  cbv zeta. unfold Binary64.centred, Binary64.yaw, Binary64.pitch.
  cbn [fst snd].
  set (cosX := Math_cos (fst rotation * Binary64.Math_PI / 180)%float).
  set (sinX := Math_sin (fst rotation * Binary64.Math_PI / 180)%float).
  set (cosY := Math_cos (snd rotation * Binary64.Math_PI / 180)%float).
  set (sinY := Math_sin (snd rotation * Binary64.Math_PI / 180)%float).
  set (px := (x * 40 - 160)%float). set (py := (- (y * 40))%float).
  set (pz := (z * 40 - 160)%float).
  set (z1 := (- px * sinY + pz * cosY)%float).
  set (z2 := (py * sinX + z1 * cosX)%float).
  set (v := (1000 - z2)%float).
  assert (Hkey : Binary64.Position.zIndex
                   (Binary64.get3DPosition64 Math_cos Math_sin rotation x y z)
                 = Binary64.Math_floor v) by reflexivity.
  do 3 (split; [repeat split; reflexivity|]).
  do 3 (split; [reflexivity|]). rewrite Hkey.
  split; [reflexivity|]. split; [|apply Math_floor_not_finite].
  intros Hv. destruct (Math_floor_real v Hv) as (n & En & [Hn1 Hn2] & Hf).
  assert (Hgreatest : forall k : Z, IZR k <= Binary64.real v -> (k <= n)%Z).
  { intros k Hk. assert (Hlt : IZR k < IZR (n + 1)) by (rewrite plus_IZR; lra).
    apply lt_IZR in Hlt. lia. }
  split; [exact Hf|]. split; [now exists n|]. rewrite En.
  split; [lra|]. split; [intros k Hk; apply IZR_le; now apply Hgreatest|].
  split; [split|split].
  - intros E. exists n. now rewrite <- E.
  - intros [k Ek]. rewrite Ek. f_equal.
    assert (k <= n)%Z by (apply Hgreatest; lra).
    assert (Hlt : IZR n < IZR (k + 1)) by (rewrite plus_IZR; lra).
    apply lt_IZR in Hlt. lia.
  - intros E. exists n. now rewrite <- E.
  - intros w Hw Hle.
    destruct (Math_floor_real w Hw) as (k & Ek & [Hk1 Hk2] & _).
    rewrite Ek. apply IZR_le, Hgreatest. lra.
Qed.

End Projection.

(** The projection at the camera [(0, 45)], where a drag of 100 pixels
    upwards brings a fresh page, for an implementation whose cosine and
    sine take the values below at 0 and at [45 * Math.PI / 180] (the first
    two are set by ECMAScript; the other two are the doubles nearest to the
    cosine and the sine). *)
Lemma projection_at_0_45 (Math_cos Math_sin : float -> float) :
  Math_cos 0 = 1 -> Math_sin 0 = 0 ->
  Math_cos 0x1.921fb54442d18p-1 = 0x1.6a09e667f3bcdp-1 ->
  Math_sin 0x1.921fb54442d18p-1 = 0x1.6a09e667f3bccp-1 ->
  Binary64.get3DPosition64 Math_cos Math_sin (0, 45) 1 0 0
  = Binary64.Position.mk 0x1.980a57fc9ad3p+6 300 1028
  /\ Binary64.finalDepth Math_cos Math_sin (0, 45) 1 0 0
     = (-0x1.c48c6001f0ac4p+4).
Proof.
  intros Hc0 Hs0 Hc Hs.
  unfold Binary64.get3DPosition64, Binary64.finalDepth, Binary64.centred,
    Binary64.pitch, Binary64.yaw.
  cbn [fst snd].
  change (0 * Binary64.Math_PI / 180) with 0.
  change (45 * Binary64.Math_PI / 180) with 0x1.921fb54442d18p-1.
  rewrite Hc0, Hs0, Hc, Hs. split; vm_compute; reflexivity.
Qed.

Lemma C1_projection_witness :
  Binary64.dragRotation64 0 (-100) (30, 45) = (0, 45)
  /\ forall Math_cos Math_sin : float -> float,
       Math_cos 0 = 1 -> Math_sin 0 = 0 ->
       Math_cos 0x1.921fb54442d18p-1 = 0x1.6a09e667f3bcdp-1 ->
       Math_sin 0x1.921fb54442d18p-1 = 0x1.6a09e667f3bccp-1 ->
       let key := Binary64.Position.zIndex
                    (Binary64.get3DPosition64 Math_cos Math_sin (0, 45) 1 0 0) in
       key = 1028
       /\ (Binary64.real key
           <= Binary64.real 0x1.0112318007c2bp+10 < Binary64.real key + 1)%R.
Proof.
  split; [vm_compute; reflexivity|].
  intros Math_cos Math_sin Hc0 Hs0 Hc Hs.
  pose proof (C1_projection Math_cos Math_sin (0, 45) 1 0 0) as H.
  destruct (projection_at_0_45 Math_cos Math_sin Hc0 Hs0 Hc Hs) as [Hp Hd].
  cbv zeta in H. unfold Binary64.centred, Binary64.yaw, Binary64.pitch in H.
  cbn [fst snd] in H.
  destruct H as (_ & _ & _ & Ed & _ & _ & _ & Hfloor & _).
  rewrite Ed, Hd, Hp in Hfloor. cbn [Binary64.Position.zIndex] in Hfloor.
  change (1000 - (-0x1.c48c6001f0ac4p+4)) with 0x1.0112318007c2bp+10 in Hfloor.
  cbv zeta. rewrite Hp. cbn [Binary64.Position.zIndex].
  split; [reflexivity|]. apply Hfloor. reflexivity.
Defined.

(** The key is not 1000 minus the depth: at the camera [(0, 45)] the block
    at [(1, 0, 0)] has the depth [-28.284271247461916], and its key is 1028,
    not [1028.284271247462]. *)
Lemma C1_counterexample :
  Binary64.dragRotation64 0 (-100) (30, 45) = (0, 45)
  /\ forall Math_cos Math_sin : float -> float,
       Math_cos 0 = 1 -> Math_sin 0 = 0 ->
       Math_cos 0x1.921fb54442d18p-1 = 0x1.6a09e667f3bcdp-1 ->
       Math_sin 0x1.921fb54442d18p-1 = 0x1.6a09e667f3bccp-1 ->
       let pos := Binary64.get3DPosition64 Math_cos Math_sin (0, 45) 1 0 0 in
       let depth := Binary64.finalDepth Math_cos Math_sin (0, 45) 1 0 0 in
       depth = (-0x1.c48c6001f0ac4p+4)
       /\ 1000 - depth = 0x1.0112318007c2bp+10
       /\ Binary64.Position.zIndex pos = 1028
       /\ Binary64.Position.zIndex pos <> 1000 - depth
       /\ (Binary64.Position.zIndex pos =? 1000 - depth) = false.
Proof.
  split; [vm_compute; reflexivity|].
  intros Math_cos Math_sin Hc0 Hs0 Hc Hs. cbv zeta.
  destruct (projection_at_0_45 Math_cos Math_sin Hc0 Hs0 Hc Hs) as [-> ->].
  cbn [Binary64.Position.zIndex].
  change (1000 - (-0x1.c48c6001f0ac4p+4)) with 0x1.0112318007c2bp+10.
  split; [reflexivity|]. split; [reflexivity|]. split; [reflexivity|].
  split; [|reflexivity].
  intros E. apply (f_equal (fun v => v =? 1028)) in E. vm_compute in E.
  discriminate.
Qed.

(** Rounding shows in the key: at the initial camera [(30, 45)] the block
    at [(4, 52, 4)], on top of 52 presses of the "build" button, has the
    depth [-1039.9999999999998] and the key 2039, where the real numbers
    give the depth -1040 and the key 2040. *)
Example rounding_in_the_key_binary64 (Math_cos Math_sin : float -> float) :
  Math_cos 0x1.0c152382d7365p-1 = 0x1.bb67ae8584cabp-1 ->
  Math_sin 0x1.0c152382d7365p-1 = 0x1.fffffffffffffp-2 ->
  Math_cos 0x1.921fb54442d18p-1 = 0x1.6a09e667f3bcdp-1 ->
  Math_sin 0x1.921fb54442d18p-1 = 0x1.6a09e667f3bccp-1 ->
  Binary64.finalDepth Math_cos Math_sin (30, 45) 4 52 4
  = (-0x1.03fffffffffffp+10)
  /\ Binary64.Position.zIndex
       (Binary64.get3DPosition64 Math_cos Math_sin (30, 45) 4 52 4) = 2039.
Proof.
  intros Hcx Hsx Hcy Hsy.
  unfold Binary64.get3DPosition64, Binary64.finalDepth, Binary64.centred,
    Binary64.pitch, Binary64.yaw.
  cbn [fst snd Binary64.Position.zIndex].
  change (30 * Binary64.Math_PI / 180) with 0x1.0c152382d7365p-1.
  change (45 * Binary64.Math_PI / 180) with 0x1.921fb54442d18p-1.
  rewrite Hcx, Hsx, Hcy, Hsy. split; vm_compute; reflexivity.
Qed.

End Binary64Properties.

(** * Further properties of the page *)

(** ** The depth sort under edits *)

Lemma filter_swap {A} (f g : A -> bool) (l : list A) :
  List.filter f (List.filter g l) = List.filter g (List.filter f l).
Proof.
  induction l as [|a l IH]; [reflexivity|]. cbn [List.filter].
  destruct (f a) eqn:Ef, (g a) eqn:Eg; cbn [List.filter];
    rewrite ?Ef, ?Eg, IH; reflexivity.
Qed.

Lemma StronglySorted_filter_notNearer (p : Block.t -> bool) l :
  StronglySorted notNearer l -> StronglySorted notNearer (List.filter p l).
Proof.
  induction 1 as [|a l Hl IH Ha]; cbn [List.filter]; [constructor|].
  destruct (p a); [|exact IH]. constructor; [exact IH|].
  rewrite List.Forall_forall in *. intros b Hb. apply Ha.
  now apply filter_In in Hb.
Qed.

(** Sorting what a filter keeps is filtering what the sort gives. *)
Lemma stable_sort_filter (p : Block.t -> bool) w :
  stable_sort byDistance (List.filter p w)
  = List.filter p (stable_sort byDistance w).
Proof.
  apply sorted_stable_unique.
  - apply stable_sort_sorted.
  - apply StronglySorted_filter_notNearer, stable_sort_sorted.
  - intros d. rewrite stable_sort_atDistance. unfold atDistance.
    rewrite (filter_swap _ p w), (filter_swap _ p (stable_sort byDistance w)).
    fold (atDistance d (stable_sort byDistance w)).
    now rewrite stable_sort_atDistance.
Qed.

(** X3.  A left click does not reorder what is left: the tiles drawn after
    it are the tiles drawn before it without those of the blocks at the
    clicked place, in the same order. *)
Theorem X3_removal_keeps_tile_order (s : State) (σ : Store) (x y z : Z) :
  let (s', σ') := handleBlockClick x y z false s σ in
  fst (render s' σ')
  = List.filter (fun tile => negb (sameCoordinates x y z (fst tile)))
      (fst (render s σ)).
Proof.
  pose proof (handleBlockClick_contents x y z false s σ) as Hc.
  assert (Hrot : cameraRotation (fst (handleBlockClick x y z false s σ))
                 = cameraRotation s) by now rewrite handleBlockClick_run.
  destruct (handleBlockClick x y z false s σ) as [s' σ']. cbn [fst] in Hrot.
  rewrite !render_run. cbn [fst]. rewrite Hc, Hrot.
  unfold clickValue, removeBlockAt. cbn [andb].
  rewrite stable_sort_filter. symmetry. apply filter_map_swap.
Qed.

Lemma filter_filter_andb {A} (f g : A -> bool) (l : list A) :
  List.filter f (List.filter g l) = List.filter (fun a => f a && g a) l.
Proof.
  induction l as [|a l IH]; [reflexivity|]. cbn [List.filter].
  destruct (g a) eqn:Eg; cbn [List.filter]; rewrite ?andb_true_r, ?andb_false_r;
    destruct (f a); now rewrite IH.
Qed.

Lemma StronglySorted_notNearer_app l1 l2 :
  StronglySorted notNearer l1 -> StronglySorted notNearer l2 ->
  (forall a c, In a l1 -> In c l2 -> notNearer a c) ->
  StronglySorted notNearer (l1 ++ l2).
Proof.
  induction 1 as [|a l1 Hl1 IH Ha]; intros H2 Hcross; [exact H2|].
  cbn [app]. constructor.
  - apply IH; [exact H2|]. intros b c Hb Hc. apply Hcross; [now right|exact Hc].
  - apply List.Forall_app. split; [exact Ha|].
    apply List.Forall_forall. intros c Hc. apply Hcross; [now left|exact Hc].
Qed.

Lemma filter_none {A} (f : A -> bool) (l : list A) :
  (forall a, In a l -> f a = false) -> List.filter f l = [].
Proof.
  induction l as [|a l IH]; intros H; [reflexivity|]. cbn [List.filter].
  rewrite (H a) by now left. apply IH. intros c Hc. apply H. now right.
Qed.

Lemma filter_all {A} (f : A -> bool) (l : list A) :
  (forall a, In a l -> f a = true) -> List.filter f l = l.
Proof.
  induction l as [|a l IH]; intros H; [reflexivity|]. cbn [List.filter].
  rewrite (H a) by now left. f_equal. apply IH. intros c Hc. apply H. now right.
Qed.

(** A sequence sorted from far to near is its blocks at distance [t] or more
    followed by its blocks nearer than [t]. *)
Lemma sorted_split (t : Z) l :
  StronglySorted notNearer l ->
  l = List.filter (fun a => t <=? squaredDistance a) l
      ++ List.filter (fun a => squaredDistance a <? t) l.
Proof.
  induction 1 as [|a l Hl IH Ha]; [reflexivity|]. cbn [List.filter].
  rewrite List.Forall_forall in Ha. unfold notNearer in Ha.
  destruct (Z.leb_spec t (squaredDistance a)) as [Hle|Hlt].
  - destruct (Z.ltb_spec (squaredDistance a) t) as [Hlt|_]; [lia|].
    cbn [app]. now rewrite <- IH.
  - destruct (Z.ltb_spec (squaredDistance a) t) as [_|Hge]; [|lia].
    rewrite filter_none, filter_all; [reflexivity| |].
    + intros c Hc. specialize (Ha c Hc). apply Z.ltb_lt. lia.
    + intros c Hc. specialize (Ha c Hc). apply Z.leb_gt. lia.
Qed.

(** Sorting a sequence with one more block at its end puts that block after
    the blocks that are not nearer and before the nearer ones, which keep
    their order. *)
Lemma stable_sort_app_one w b :
  stable_sort byDistance (w ++ [b])
  = List.filter (fun a => squaredDistance b <=? squaredDistance a)
      (stable_sort byDistance w)
    ++ b :: List.filter (fun a => squaredDistance a <? squaredDistance b)
              (stable_sort byDistance w).
Proof.
  set (t := squaredDistance b). set (sorted := stable_sort byDistance w).
  assert (Hs : StronglySorted notNearer sorted) by apply stable_sort_sorted.
  apply sorted_stable_unique.
  - apply stable_sort_sorted.
  - apply StronglySorted_notNearer_app.
    + now apply StronglySorted_filter_notNearer.
    + constructor; [now apply StronglySorted_filter_notNearer|].
      apply List.Forall_forall. intros c Hc. apply filter_In in Hc.
      destruct Hc as [_ Hc]. apply Z.ltb_lt in Hc. unfold notNearer. fold t. lia.
    + intros a c Ha Hc. apply filter_In in Ha. destruct Ha as [_ Ha].
      apply Z.leb_le in Ha. unfold notNearer.
      destruct Hc as [<-|Hc]; [fold t; lia|].
      apply filter_In in Hc. destruct Hc as [_ Hc]. apply Z.ltb_lt in Hc. lia.
  - intros d. rewrite stable_sort_atDistance. unfold atDistance.
    rewrite !List.filter_app. cbn [List.filter]. rewrite !filter_filter_andb.
    fold t. destruct (Z.eqb_spec t d) as [Ht|Ht].
    + rewrite (filter_none (fun a => (squaredDistance a =? d)
                                     && (squaredDistance a <? t)))
        by (intros a _; apply andb_false_iff;
            destruct (Z.eqb_spec (squaredDistance a) d); [right; apply Z.ltb_ge; lia|now left]).
      f_equal.
      transitivity (atDistance d sorted);
        [symmetry; apply stable_sort_atDistance|].
      unfold atDistance. apply List.filter_ext. intros a.
      destruct (Z.eqb_spec (squaredDistance a) d); [|reflexivity].
      symmetry. apply Z.leb_le. lia.
    + rewrite app_nil_r.
      transitivity (atDistance d sorted);
        [symmetry; apply stable_sort_atDistance|].
      unfold atDistance. rewrite (sorted_split t sorted Hs) at 1.
      rewrite List.filter_app, !filter_filter_andb. reflexivity.
Qed.

(** X4.  A right click with a material selected adds one tile and reorders
    nothing: the tiles drawn after it are the old tiles of the blocks not
    nearer to the origin than the new block, then the tile of the new block,
    then the old tiles of the nearer blocks, each group in its old order. *)
Theorem X4_addition_inserts_one_tile (s : State) (σ : Store) (x y z : Z) :
  selectedBlock s <> air ->
  let b := Block.mk (selectedBlock s) x (y + 1) z in
  let old := fst (render s σ) in
  let (s', σ') := handleBlockClick x y z true s σ in
  fst (render s' σ')
  = List.filter (fun tile => squaredDistance b <=? squaredDistance (fst tile)) old
    ++ tileOf (cameraRotation s) b
    :: List.filter (fun tile => squaredDistance (fst tile) <? squaredDistance b) old
  /\ old
     = List.filter (fun tile => squaredDistance b <=? squaredDistance (fst tile)) old
       ++ List.filter (fun tile => squaredDistance (fst tile) <? squaredDistance b) old.
Proof.
  intros Hsel. cbv zeta.
  pose proof (handleBlockClick_contents x y z true s σ) as Hc.
  assert (Hrot : cameraRotation (fst (handleBlockClick x y z true s σ))
                 = cameraRotation s) by now rewrite handleBlockClick_run.
  destruct (handleBlockClick x y z true s σ) as [s' σ']. cbn [fst] in Hrot.
  rewrite !render_run. cbn [fst]. rewrite Hc, Hrot.
  unfold clickValue, addBlock. cbn [andb].
  rewrite bool_decide_eq_false_2 by exact Hsel. cbn [negb].
  rewrite !(filter_map_swap _ (tileOf (cameraRotation s))). cbn [tileOf fst].
  split.
  - rewrite stable_sort_app_one, List.map_app. reflexivity.
  - rewrite <- List.map_app. f_equal. apply sorted_split, stable_sort_sorted.
Qed.

Lemma X4_addition_inserts_one_tile_witness :
  let (s, σ) := pageWith stone [Block.mk grass 0 0 0; Block.mk dirt 2 0 0] in
  let (s', σ') := handleBlockClick 0 0 0 true s σ in
  List.map fst (fst (render s' σ'))
  = [Block.mk dirt 2 0 0; Block.mk stone 0 1 0; Block.mk grass 0 0 0].
Proof.
  pose proof (pageWith_contents stone [Block.mk grass 0 0 0; Block.mk dirt 2 0 0])
    as H0.
  destruct (pageWith _ _) as [s σ]. destruct H0 as (Hw & Hsel & _).
  assert (Hair : selectedBlock s <> air) by (rewrite Hsel; discriminate).
  pose proof (X4_addition_inserts_one_tile s σ 0 0 0 Hair) as H. cbv zeta in H.
  destruct (handleBlockClick 0 0 0 true s σ) as [s' σ'].
  destruct H as [-> _]. rewrite render_run, Hw, Hsel. cbn [fst].
  rewrite List.map_app. cbn [List.map].
  rewrite !(filter_map_swap _ (tileOf (cameraRotation s))), !List.map_map.
  reflexivity.
Defined.

(** ** Clicks on the tiles *)

Lemma filter_length_lt {A} (f : A -> bool) (l : list A) (a : A) :
  In a l -> f a = false -> (length (List.filter f l) < length l)%nat.
Proof.
  induction l as [|c l IH]; intros Hin Hf; [destruct Hin|].
  cbn [List.filter length]. destruct Hin as [->|Hin].
  - rewrite Hf. pose proof (List.filter_length_le f l). lia.
  - specialize (IH Hin Hf). destruct (f c); cbn [length]; lia.
Qed.

Lemma render_tiles s σ :
  fst (render s σ)
  = List.map (tileOf (cameraRotation s))
      (stable_sort byDistance (contents σ (world s))).
Proof. now rewrite render_run. Qed.

(** The block of a drawn tile is a block of the world. *)
Lemma tile_block_in_world s σ idx block pos :
  nth_error (fst (render s σ)) idx = Some (block, pos) ->
  In block (contents σ (world s)).
Proof.
  rewrite render_tiles. intros E. apply nth_error_In, in_map_iff in E.
  destruct E as (b & [= <- _] & Hb).
  now apply (Permutation_in _ (stable_sort_perm byDistance _)) in Hb.
Qed.

(** A tile handler is a click at the coordinates of the block drawn there,
    on the world as it was before the render. *)
Lemma onTile_contents idx isRightClick s σ block pos :
  allocated σ (world s) ->
  nth_error (fst (render s σ)) idx = Some (block, pos) ->
  let (s', σ') := onTile idx isRightClick s σ in
  contents σ' (world s')
  = clickValue (selectedBlock s) (Block.x block) (Block.y block) (Block.z block)
      isRightClick (contents σ (world s)).
Proof.
  intros Ha E. unfold onTile, bind.
  pose proof (render_frame s σ) as Hf.
  destruct (render s σ) as [tiles σ1]. cbn [fst snd] in E, Hf. rewrite E.
  pose proof (handleBlockClick_contents (Block.x block) (Block.y block)
                (Block.z block) isRightClick s σ1) as Hc.
  destruct (handleBlockClick _ _ _ _ _ _) as [s' σ'].
  now rewrite Hc, (proj2 (Hf _ Ha)).
Qed.

(** X5.  As many tiles are drawn as the world has blocks.  A left click on
    a drawn tile removes the block drawn there, together with every block at
    the same coordinates and nothing else, so that the world gets shorter;
    a click on an index where no tile is drawn changes neither the state
    nor the contents of the world. *)
Theorem X5_left_click_removes_drawn_block (random : nat -> R) (s : State)
    (σ : Store) (idx : nat) :
  allocated σ (world s) ->
  length (fst (render s σ)) = length (contents σ (world s))
  /\ (forall block pos,
      nth_error (fst (render s σ)) idx = Some (block, pos) ->
      let (s', σ') := step random (TileClick idx) s σ in
      contents σ' (world s')
      = removeBlockAt (Block.x block) (Block.y block) (Block.z block)
          (contents σ (world s))
      /\ In block (contents σ (world s))
      /\ ~ In block (contents σ' (world s'))
      /\ (length (contents σ' (world s')) < length (contents σ (world s)))%nat)
  /\ ((length (contents σ (world s)) <= idx)%nat ->
      let (s', σ') := step random (TileClick idx) s σ in
      s' = s /\ contents σ' (world s') = contents σ (world s)).
Proof.
  intros Ha.
  assert (Hlen : length (fst (render s σ)) = length (contents σ (world s))).
  { rewrite render_tiles, List.length_map.
    apply Permutation_length, stable_sort_perm. }
  split; [exact Hlen|]. split.
  - intros block pos E. cbn [step].
    pose proof (onTile_contents idx false s σ block pos Ha E) as Hc.
    pose proof (tile_block_in_world s σ idx block pos E) as Hin.
    destruct (onTile idx false s σ) as [s' σ']. rewrite Hc.
    unfold clickValue. cbn [andb].
    assert (Hsame : sameCoordinates (Block.x block) (Block.y block)
                      (Block.z block) block = true)
      by (apply sameCoordinates_at; now unfold at_).
    split; [reflexivity|]. split; [exact Hin|]. split.
    + intros Hb. apply removeBlockAt_In in Hb. destruct Hb as [_ Hb].
      apply Hb. now unfold at_.
    + unfold removeBlockAt. apply (filter_length_lt _ _ block Hin).
      now rewrite Hsame.
  - intros Hidx. cbn [step]. unfold onTile, bind.
    pose proof (render_frame s σ) as Hf.
    assert (Hnone : nth_error (fst (render s σ)) idx = None)
      by (apply nth_error_None; lia).
    destruct (render s σ) as [tiles σ1]. cbn [fst snd] in Hnone, Hf.
    rewrite Hnone. split; [reflexivity|]. exact (proj2 (Hf _ Ha)).
Qed.

Lemma X5_left_click_removes_drawn_block_witness :
  let (s, σ) := pageWith grass [Block.mk grass 0 0 0; Block.mk dirt 2 1 0] in
  (let (s', σ') := step (fun _ => 0%R) (TileClick 5) s σ in
   s' = s /\ contents σ' (world s') = [Block.mk grass 0 0 0; Block.mk dirt 2 1 0])
  /\ (let (s', σ') := step (fun _ => 0%R) (TileClick 0) s σ in
      contents σ' (world s') = [Block.mk grass 0 0 0]).
Proof.
  pose proof (pageWith_contents grass [Block.mk grass 0 0 0; Block.mk dirt 2 1 0])
    as H0.
  destruct (pageWith _ _) as [s σ]. destruct H0 as (Hw & _ & Ha).
  split.
  - pose proof (X5_left_click_removes_drawn_block (fun _ => 0%R) s σ 5 Ha)
      as (_ & _ & H).
    rewrite Hw in H. apply H. cbn. lia.
  - pose proof (X5_left_click_removes_drawn_block (fun _ => 0%R) s σ 0 Ha)
      as (_ & H & _).
    assert (E : nth_error (fst (render s σ)) 0
                = Some (tileOf (cameraRotation s) (Block.mk dirt 2 1 0)))
      by (rewrite render_tiles, Hw; reflexivity).
    specialize (H _ _ E).
    destruct (step _ _ s σ) as [s' σ']. destruct H as (-> & _).
    now rewrite Hw.
Defined.

(** X6.  A right click on a drawn tile, with a material selected, appends
    exactly one block of that material one unit above the block drawn
    there; the place is not checked, so the new block is added even when
    blocks already stand there. *)
Theorem X6_right_click_adds_above_drawn_block (random : nat -> R) (s : State)
    (σ : Store) (idx : nat) (block : Block.t) (pos : Position.t) :
  allocated σ (world s) ->
  selectedBlock s <> air ->
  nth_error (fst (render s σ)) idx = Some (block, pos) ->
  let (s', σ') := step random (TileContextMenu idx) s σ in
  contents σ' (world s')
  = contents σ (world s)
    ++ [Block.mk (selectedBlock s) (Block.x block) (Block.y block + 1)
          (Block.z block)]
  /\ length (contents σ' (world s')) = S (length (contents σ (world s)))
  /\ selectedBlock s' = selectedBlock s.
Proof.
  intros Ha Hsel E. cbn [step].
  pose proof (onTile_contents idx true s σ block pos Ha E) as Hc.
  assert (Hs : selectedBlock (fst (onTile idx true s σ)) = selectedBlock s).
  { unfold onTile, bind. destruct (render s σ) as [tiles σ1].
    cbn [fst] in E. rewrite E. now rewrite handleBlockClick_run. }
  destruct (onTile idx true s σ) as [s' σ']. rewrite Hc.
  unfold clickValue, addBlock. cbn [andb].
  rewrite bool_decide_eq_false_2 by exact Hsel. cbn [negb].
  split; [reflexivity|]. split; [|exact Hs].
  rewrite List.length_app. cbn [length]. lia.
Qed.

Lemma X6_right_click_adds_above_drawn_block_witness :
  let (s, σ) := pageWith planks [Block.mk grass 0 0 0; Block.mk dirt 0 1 0] in
  let (s', σ') := step (fun _ => 0%R) (TileContextMenu 1) s σ in
  contents σ' (world s')
  = [Block.mk grass 0 0 0; Block.mk dirt 0 1 0; Block.mk planks 0 1 0].
Proof.
  pose proof (pageWith_contents planks [Block.mk grass 0 0 0; Block.mk dirt 0 1 0])
    as H0.
  destruct (pageWith _ _) as [s σ]. destruct H0 as (Hw & Hsel & Ha).
  assert (Hair : selectedBlock s <> air) by (rewrite Hsel; discriminate).
  assert (E : nth_error (fst (render s σ)) 1
              = Some (tileOf (cameraRotation s) (Block.mk grass 0 0 0)))
    by (rewrite render_tiles, Hw; reflexivity).
  pose proof (X6_right_click_adds_above_drawn_block (fun _ => 0%R) s σ 1 _ _
                Ha Hair E) as H.
  destruct (step _ _ s σ) as [s' σ']. destruct H as (-> & _).
  now rewrite Hw, Hsel.
Defined.

(** ** The "destroy" button *)

Lemma aboveGroundb_spec cx cz b : aboveGroundb cx cz b = true <-> aboveGround cx cz b.
Proof.
  unfold aboveGroundb, aboveGround.
  rewrite !andb_true_iff, !Z.eqb_eq, Z.gtb_lt. tauto.
Qed.

Lemma find_first {A} (p : A -> bool) l1 b l2 :
  (forall a, In a l1 -> p a = false) -> p b = true ->
  List.find p (l1 ++ b :: l2) = Some b.
Proof.
  intros H1 Hb. induction l1 as [|a l1 IH]; cbn [app List.find].
  - now rewrite Hb.
  - rewrite (H1 a) by now left. apply IH. intros c Hc. apply H1. now right.
Qed.

(** What the "destroy" button stores, by what its search finds. *)
Lemma destroyAt_contents cx cz s σ :
  let (s', σ') := destroyAt cx cz s σ in
  contents σ' (world s')
  = match List.find (aboveGroundb cx cz) (contents σ (world s)) with
    | Some b => removeBlockAt (Block.x b) (Block.y b) (Block.z b)
                  (contents σ (world s))
    | None => contents σ (world s)
    end.
Proof.
  unfold destroyAt, bind, Array_find, bind, Array_read, ret.
  change (fun b => (Block.x b =? cx) && (Block.z b =? cz) && (Block.y b >? 0))
    with (aboveGroundb cx cz).
  destruct (List.find _ _) as [b|]; [|reflexivity].
  pose proof (handleBlockClick_contents (Block.x b) (Block.y b) (Block.z b)
                false s σ) as Hc.
  now destruct (handleBlockClick _ _ _ _ _ _).
Qed.

(** Removing a block the search accepts touches no block it rejects. *)
Lemma removeBlockAt_keeps_rejected cx cz b w :
  aboveGroundb cx cz b = true ->
  List.filter (fun a => negb (aboveGroundb cx cz a))
    (removeBlockAt (Block.x b) (Block.y b) (Block.z b) w)
  = List.filter (fun a => negb (aboveGroundb cx cz a)) w.
Proof.
  intros Hb. unfold removeBlockAt. rewrite filter_filter_andb.
  apply List.filter_ext. intros a.
  destruct (aboveGroundb cx cz a) eqn:Ea; [reflexivity|]. cbn [negb andb].
  destruct (sameCoordinates _ _ _ a) eqn:Es; [|reflexivity].
  apply sameCoordinates_at in Es. destruct Es as (Ex & Ey & Ez).
  unfold aboveGroundb in *. rewrite Ex, Ey, Ez in Ea. congruence.
Qed.

Lemma removeBlockAt_fewer_accepted cx cz b w :
  In b w -> aboveGroundb cx cz b = true ->
  (length (List.filter (aboveGroundb cx cz)
             (removeBlockAt (Block.x b) (Block.y b) (Block.z b) w))
   < length (List.filter (aboveGroundb cx cz) w))%nat.
Proof.
  intros Hin Hb. unfold removeBlockAt. rewrite filter_swap.
  apply (filter_length_lt _ _ b).
  - apply filter_In. now split.
  - apply negb_false_iff, sameCoordinates_at. now unfold at_.
Qed.

(** X7.  The "destroy" button removes the block above ground of the centre
    column that was inserted first, with every block at its coordinates,
    whether or not blocks stand on top of it; it removes no block that is
    outside the centre column or not above ground. *)
Theorem X7_destroy_removes_earliest (random : nat -> R) (s : State) (σ : Store)
    (l1 l2 : list Block.t) (b : Block.t) :
  contents σ (world s) = l1 ++ b :: l2 ->
  aboveGround 4 4 b ->
  (forall a, In a l1 -> ~ aboveGround 4 4 a) ->
  let (s', σ') := step random DestroyClick s σ in
  contents σ' (world s')
  = removeBlockAt (Block.x b) (Block.y b) (Block.z b) (contents σ (world s))
  /\ ~ In b (contents σ' (world s'))
  /\ List.filter (fun a => negb (aboveGroundb 4 4 a)) (contents σ' (world s'))
     = List.filter (fun a => negb (aboveGroundb 4 4 a)) (contents σ (world s)).
Proof.
  intros Hw Hb Hl1. cbn [step]. unfold destroyOnClick.
  change (WORLD_SIZE / 2)%Z with 4%Z.
  pose proof (destroyAt_contents 4 4 s σ) as Hc.
  destruct (destroyAt 4 4 s σ) as [s' σ'].
  apply aboveGroundb_spec in Hb.
  rewrite Hw, (find_first (aboveGroundb 4 4) l1 b l2) in Hc.
  - rewrite Hc, Hw. split; [reflexivity|]. split.
    + intros Hin. apply removeBlockAt_In in Hin. destruct Hin as [_ Hin].
      apply Hin. now unfold at_.
    + now apply removeBlockAt_keeps_rejected.
  - intros a Ha. specialize (Hl1 a Ha).
    destruct (aboveGroundb 4 4 a) eqn:E; [|reflexivity].
    now apply aboveGroundb_spec in E.
  - exact Hb.
Qed.

Lemma X7_destroy_removes_earliest_witness :
  let (s, σ) := pageWith grass
                  [Block.mk grass 4 0 4; Block.mk dirt 4 1 4; Block.mk stone 4 2 4] in
  let (s', σ') := step (fun _ => 0%R) DestroyClick s σ in
  contents σ' (world s') = [Block.mk grass 4 0 4; Block.mk stone 4 2 4].
Proof.
  pose proof (pageWith_contents grass
                [Block.mk grass 4 0 4; Block.mk dirt 4 1 4; Block.mk stone 4 2 4])
    as H0.
  destruct (pageWith _ _) as [s σ]. destruct H0 as (Hw & _).
  pose proof (X7_destroy_removes_earliest (fun _ => 0%R) s σ
                [Block.mk grass 4 0 4] [Block.mk stone 4 2 4]
                (Block.mk dirt 4 1 4) Hw) as H.
  destruct (step _ _ s σ) as [s' σ'].
  destruct H as (-> & _).
  - unfold aboveGround; cbn. lia.
  - intros a [<-|[]]. unfold aboveGround; cbn. lia.
  - now rewrite Hw.
Defined.

(** X8.  Each press of the "destroy" button that finds a block leaves fewer
    blocks above ground in the centre column: after [n] presses at most the
    old number less [n] are left, so that as many presses as there were
    such blocks clear the column down to the ground.  Whatever the number
    of presses, the blocks outside the centre column and those not above
    ground stay as they are, in their order. *)
Theorem X8_destroy_clears_centre_column (random : nat -> R) (n : nat)
    (s : State) (σ : Store) :
  let (s', σ') := run random (repeat DestroyClick n) s σ in
  (length (List.filter (aboveGroundb 4 4) (contents σ' (world s')))
   <= length (List.filter (aboveGroundb 4 4) (contents σ (world s))) - n)%nat
  /\ List.filter (fun a => negb (aboveGroundb 4 4 a)) (contents σ' (world s'))
     = List.filter (fun a => negb (aboveGroundb 4 4 a)) (contents σ (world s)).
Proof.
  revert s σ. induction n as [|n IH]; intros s σ; cbn [repeat run].
  - unfold ret. split; [lia|reflexivity].
  - unfold bind. cbn [step]. unfold destroyOnClick.
    change (WORLD_SIZE / 2)%Z with 4%Z.
    pose proof (destroyAt_contents 4 4 s σ) as Hc.
    destruct (destroyAt 4 4 s σ) as [s1 σ1].
    specialize (IH s1 σ1). destruct (run random _ s1 σ1) as [s' σ'].
    destruct IH as [Hlen Hrest]. rewrite Hc in Hlen, Hrest.
    destruct (List.find _ _) as [b|] eqn:E.
    + apply List.find_some in E. destruct E as [Hin Hb].
      pose proof (removeBlockAt_fewer_accepted 4 4 b _ Hin Hb).
      rewrite removeBlockAt_keeps_rejected in Hrest by exact Hb.
      split; [lia|exact Hrest].
    + split; [|exact Hrest].
      assert (Hnone : List.filter (aboveGroundb 4 4) (contents σ (world s)) = []).
      { apply filter_none. intros a Ha.
        destruct (aboveGroundb 4 4 a) eqn:Ea; [|reflexivity].
        now rewrite (List.find_none _ _ E a Ha) in Ea. }
      rewrite Hnone in *. cbn [length] in *. lia.
Qed.

(** ** The "build" button *)

Lemma Math_max_0_app l1 l2 :
  Math_max_0 (l1 ++ l2) = Z.max (Math_max_0 l1) (Math_max_0 l2).
Proof.
  unfold Math_max_0. induction l1 as [|a l1 IH]; cbn [app fold_right].
  - pose proof (Math_max_0_nonneg l2). unfold Math_max_0 in *. lia.
  - rewrite IH. lia.
Qed.

Lemma Math_max_0_nonpos ys : Forall (fun y => y <= 0) ys -> Math_max_0 ys = 0.
Proof.
  unfold Math_max_0. induction 1 as [|y ys Hy _ IH]; cbn [fold_right]; lia.
Qed.

(** What the "build" button stores, with a material selected. *)
Lemma placeOnTopOf_contents x z s σ :
  selectedBlock s <> air ->
  let (s', σ') := placeOnTopOf x z s σ in
  contents σ' (world s')
  = contents σ (world s)
    ++ [Block.mk (selectedBlock s) x (columnHeight x z (contents σ (world s)) + 1) z]
  /\ selectedBlock s' = selectedBlock s.
Proof.
  intros Hsel. unfold placeOnTopOf, bind, Array_read.
  change (Math_max_0 _) with (columnHeight x z (contents σ (world s))).
  rewrite handleBlockClick_run. cbn [world withWorld selectedBlock].
  rewrite contents_insert_eq. unfold clickValue, addBlock. cbn [andb].
  now rewrite bool_decide_eq_false_2 by exact Hsel.
Qed.

Lemma columnHeight_built t x z w :
  columnHeight x z (w ++ [Block.mk t x (columnHeight x z w + 1) z])
  = columnHeight x z w + 1.
Proof.
  unfold columnHeight at 1. unfold column. rewrite List.filter_app.
  cbn [List.filter Block.x Block.z]. rewrite !Z.eqb_refl. cbn [andb].
  rewrite List.map_app, Math_max_0_app. fold (column x z w).
  fold (columnHeight x z w). cbn [List.map Block.y].
  assert (E : Math_max_0 [columnHeight x z w + 1]
              = Z.max (columnHeight x z w + 1) 0) by reflexivity.
  rewrite E.
  pose proof (Math_max_0_nonneg (List.map Block.y (column x z w))) as Hn.
  fold (columnHeight x z w) in Hn. lia.
Qed.

(** X9.  With a material selected, [n] presses of the "build" button stack
    [n] blocks of that material on the centre column, at the heights
    [h + 1], ..., [h + n] above the height [h] the column had (0 for a
    column that is empty or not above ground); nothing else changes in the
    world. *)
Theorem X9_build_stacks (random : nat -> R) (n : nat) (s : State) (σ : Store) :
  selectedBlock s <> air ->
  let h := columnHeight 4 4 (contents σ (world s)) in
  let (s', σ') := run random (repeat BuildClick n) s σ in
  contents σ' (world s')
  = contents σ (world s)
    ++ List.map (fun k => Block.mk (selectedBlock s) 4 (h + Z.of_nat k) 4)
         (seq 1 n)
  /\ columnHeight 4 4 (contents σ' (world s')) = h + Z.of_nat n.
Proof.
  revert s σ. induction n as [|n IH]; intros s σ Hsel; cbv zeta;
    cbn [repeat run seq List.map].
  - unfold ret. rewrite app_nil_r. split; [reflexivity|lia].
  - unfold bind. cbn [step]. unfold buildOnClick.
    change (WORLD_SIZE / 2) with 4.
    pose proof (placeOnTopOf_contents 4 4 s σ Hsel) as H1.
    destruct (placeOnTopOf 4 4 s σ) as [s1 σ1]. destruct H1 as [Hc1 Hs1].
    assert (Hsel1 : selectedBlock s1 <> air) by now rewrite Hs1.
    specialize (IH s1 σ1 Hsel1). cbv zeta in IH.
    destruct (run random (repeat BuildClick n) s1 σ1) as [s' σ'].
    destruct IH as [Hc Hh]. split.
    + rewrite Hc, Hc1, Hs1, columnHeight_built.
      rewrite <- List.app_assoc. cbn [app]. do 2 f_equal.
      rewrite <- (List.seq_shift n 1), List.map_map. apply List.map_ext.
      intros k. f_equal. lia.
    + rewrite Hh, Hc1, columnHeight_built. lia.
Qed.

Lemma X9_build_stacks_witness :
  let (s, σ) := pageWith wood [Block.mk grass 4 0 4; Block.mk dirt 4 1 4] in
  let (s', σ') := run (fun _ => 0%R) [BuildClick; BuildClick] s σ in
  contents σ' (world s')
  = [Block.mk grass 4 0 4; Block.mk dirt 4 1 4;
     Block.mk wood 4 2 4; Block.mk wood 4 3 4].
Proof.
  pose proof (pageWith_contents wood [Block.mk grass 4 0 4; Block.mk dirt 4 1 4])
    as H0.
  destruct (pageWith _ _) as [s σ]. destruct H0 as (Hw & Hsel & _).
  assert (Hair : selectedBlock s <> air) by (rewrite Hsel; discriminate).
  pose proof (X9_build_stacks (fun _ => 0%R) 2 s σ Hair) as H.
  cbv zeta in H. cbn [repeat] in H.
  destruct (run _ _ s σ) as [s' σ']. destruct H as [-> _].
  now rewrite Hw, Hsel.
Defined.

(** X10.  On a world whose centre column has no block above ground, with a
    material selected, a press of "build" followed by a press of "destroy"
    gives back the world as it was: the block built is the one destroyed. *)
Theorem X10_build_then_destroy (random : nat -> R) (s : State) (σ : Store) :
  selectedBlock s <> air ->
  (forall b, In b (contents σ (world s)) -> ~ aboveGround 4 4 b) ->
  let (s', σ') := run random [BuildClick; DestroyClick] s σ in
  contents σ' (world s') = contents σ (world s)
  /\ selectedBlock s' = selectedBlock s.
Proof.
  intros Hsel Hnone. cbn [run]. unfold bind, ret. cbn [step].
  unfold buildOnClick, destroyOnClick. change (WORLD_SIZE / 2) with 4.
  pose proof (placeOnTopOf_contents 4 4 s σ Hsel) as H1.
  destruct (placeOnTopOf 4 4 s σ) as [s1 σ1]. destruct H1 as [Hc1 Hs1].
  pose proof (destroyAt_contents 4 4 s1 σ1) as Hc2.
  assert (Hs2 : selectedBlock (fst (destroyAt 4 4 s1 σ1)) = selectedBlock s1).
  { unfold destroyAt, bind, Array_find, bind, Array_read, ret.
    destruct (List.find _ _); [now rewrite handleBlockClick_run|reflexivity]. }
  destruct (destroyAt 4 4 s1 σ1) as [s' σ']. cbn [fst] in Hs2.
  split; [|congruence].
  assert (Hh : columnHeight 4 4 (contents σ (world s)) = 0).
  { unfold columnHeight. apply Math_max_0_nonpos. apply List.Forall_map.
    apply List.Forall_forall. intros b Hb. unfold column in Hb.
    apply filter_In in Hb. destruct Hb as [Hin Hb].
    apply andb_true_iff in Hb. destruct Hb as [Hx Hz].
    apply Z.eqb_eq in Hx, Hz. specialize (Hnone b Hin).
    unfold aboveGround in Hnone. lia. }
  rewrite Hh in Hc1. cbn in Hc1. rewrite Hc2, Hc1.
  rewrite (find_first (aboveGroundb 4 4) (contents σ (world s)) _ []).
  - etransitivity;
      [apply (removeBlockAt_addBlock (selectedBlock s) 4 1 4
                (contents σ (world s)))|].
    apply removeBlockAt_none.
    intros b Hb [Hx [Hy Hz]]. apply (Hnone b Hb). unfold aboveGround. lia.
  - intros a Ha. specialize (Hnone a Ha).
    destruct (aboveGroundb 4 4 a) eqn:E; [|reflexivity].
    now apply aboveGroundb_spec in E.
  - reflexivity.
Qed.

Lemma X10_build_then_destroy_witness :
  let (s, σ) := pageWith stone [Block.mk grass 4 0 4; Block.mk dirt 3 1 4] in
  let (s', σ') := run (fun _ => 0%R) [BuildClick; DestroyClick] s σ in
  contents σ' (world s') = [Block.mk grass 4 0 4; Block.mk dirt 3 1 4].
Proof.
  pose proof (pageWith_contents stone [Block.mk grass 4 0 4; Block.mk dirt 3 1 4])
    as H0.
  destruct (pageWith _ _) as [s σ]. destruct H0 as (Hw & Hsel & _).
  assert (Hair : selectedBlock s <> air) by (rewrite Hsel; discriminate).
  pose proof (X10_build_then_destroy (fun _ => 0%R) s σ Hair) as H.
  destruct (run _ _ s σ) as [s' σ']. rewrite <- Hw. apply H.
  rewrite Hw. intros b [<-|[<-|[]]]; unfold aboveGround; cbn; lia.
Defined.

(** ** The pointer gesture *)

Lemma run_app random events1 events2 s σ :
  run random (events1 ++ events2) s σ
  = let (s1, σ1) := run random events1 s σ in run random events2 s1 σ1.
Proof.
  revert s σ. induction events1 as [|e events1 IH]; intros s σ; cbn [app run].
  - reflexivity.
  - unfold bind. destruct (step random e s σ) as [s1 σ1]. apply IH.
Qed.

(** What an event does to the three cells of the gesture. *)
Lemma step_gesture random e s σ :
  let s' := fst (step random e s σ) in
  match e with
  | PointerDown cx cy => s' = handlePointerDown cx cy s
  | PointerMove cx cy => s' = handlePointerMove cx cy s
  | PointerUp | PointerLeave => s' = handlePointerUp s
  | _ => cameraRotation s' = cameraRotation s
         /\ isDragging s' = isDragging s /\ dragStart s' = dragStart s
  end.
Proof.
  destruct e; cbn [step]; try reflexivity.
  - rewrite generateWorld_run. now repeat split.
  - unfold bind, ret. destruct (render s σ). now repeat split.
  - unfold onTile, bind. destruct (render s σ) as [tiles σ1].
    destruct (nth_error tiles idx) as [[block pos]|]; [|now repeat split].
    rewrite handleBlockClick_run. now repeat split.
  - unfold onTile, bind. destruct (render s σ) as [tiles σ1].
    destruct (nth_error tiles idx) as [[block pos]|]; [|now repeat split].
    rewrite handleBlockClick_run. now repeat split.
  - now repeat split.
  - now repeat split.
  - destruct (showInventory s), (nth_error inventory idx); now repeat split.
  - unfold destroyOnClick, destroyAt, bind, Array_find, bind, Array_read, ret.
    destruct (List.find _ _); [|now repeat split].
    rewrite handleBlockClick_run. now repeat split.
  - unfold buildOnClick, placeOnTopOf, bind, Array_read.
    rewrite handleBlockClick_run. now repeat split.
Qed.

Lemma run_idle random events s σ :
  isDragging s = false ->
  (forall cx cy, ~ In (PointerDown cx cy) events) ->
  let s' := fst (run random events s σ) in
  cameraRotation s' = cameraRotation s /\ isDragging s' = false.
Proof.
  revert s σ. induction events as [|e events IH]; intros s σ Hd Hno; cbn [run].
  - now split.
  - unfold bind. pose proof (step_gesture random e s σ) as Hg.
    destruct (step random e s σ) as [s1 σ1]. cbn [fst] in Hg.
    assert (H1 : cameraRotation s1 = cameraRotation s /\ isDragging s1 = false).
    { destruct e; try (destruct Hg as (-> & -> & _); now split).
      - exfalso. apply (Hno clientX clientY). now left.
      - subst s1. unfold handlePointerMove. rewrite Hd. now split.
      - subst s1. now split.
      - subst s1. now split. }
    destruct H1 as [Hc1 Hd1].
    assert (Hno1 : forall cx cy, ~ In (PointerDown cx cy) events)
      by (intros cx cy Hin; apply (Hno cx cy); now right).
    specialize (IH s1 σ1 Hd1 Hno1). cbv zeta in IH. rewrite <- Hc1. exact IH.
Qed.

(** X11.  Without a press the camera never turns, whatever else happens: on
    a page whose events hold no pointer-down the camera is the initial one,
    and after a pointer-up or a pointer-leave the camera stays where the
    release left it as long as no pointer-down follows. *)
Theorem X11_no_rotation_without_press (random : nat -> R)
    (before after : list Event) :
  (forall cx cy, ~ In (PointerDown cx cy) after) ->
  cameraRotation (fst (page random after)) = Rotation.mk 30 45
  /\ cameraRotation (fst (page random (before ++ PointerUp :: after)))
     = cameraRotation (fst (page random before))
  /\ cameraRotation (fst (page random (before ++ PointerLeave :: after)))
     = cameraRotation (fst (page random before)).
Proof.
  intros Hno. split; [|split].
  - unfold page, bind.
    destruct (initialState emptyStore) as [s0 σ0] eqn:E0.
    assert (Hd : isDragging s0 = false /\ cameraRotation s0 = Rotation.mk 30 45)
      by (injection E0 as <- <-; now split).
    destruct Hd as [Hd Hc0].
    rewrite <- Hc0. apply (run_idle random after s0 σ0 Hd Hno).
  - unfold page, bind. destruct (initialState emptyStore) as [s0 σ0].
    rewrite run_app. destruct (run random before s0 σ0) as [s1 σ1].
    cbn [run step fst]. unfold bind, ret.
    apply (run_idle random after (handlePointerUp s1) σ1 eq_refl Hno).
  - unfold page, bind. destruct (initialState emptyStore) as [s0 σ0].
    rewrite run_app. destruct (run random before s0 σ0) as [s1 σ1].
    cbn [run step fst]. unfold bind, ret.
    apply (run_idle random after (handlePointerUp s1) σ1 eq_refl Hno).
Qed.

Lemma X11_no_rotation_without_press_witness :
  cameraRotation
    (fst (page (fun _ => 0%R) [PointerMove 500 500; BuildClick; PointerMove 0 0]))
  = Rotation.mk 30 45.
Proof.
  refine (proj1 (X11_no_rotation_without_press (fun _ => 0%R) []
                   [PointerMove 500 500; BuildClick; PointerMove 0 0] _)).
  intros cx cy Hin. cbn [In] in Hin.
  destruct Hin as [H|[H|[H|H]]]; try discriminate. exact H.
Defined.

Local Open Scope R_scope.

Lemma js_rem_bounded a : -360 < a < 360 -> js_rem a 360 = a.
Proof.
  intros H. destruct (Rle_dec 0 a).
  - apply js_rem_small. lra.
  - apply js_rem_small_neg. lra.
Qed.

Lemma dragRotation_bounds dx dy prev :
  -90 <= Rotation.x (dragRotation dx dy prev) <= 90
  /\ -360 < Rotation.y (dragRotation dx dy prev) < 360.
Proof.
  split; [apply clamp_bounds|]. cbn [dragRotation Rotation.y].
  destruct (Rle_dec 0 (Rotation.y prev + dx * 0.3)) as [H|H].
  - pose proof (js_rem_nonneg _ 360 H). lra.
  - apply Rnot_le_lt in H. pose proof (js_rem_neg _ 360 H). lra.
Qed.

(** X12.  A pointer-move repeated at the same position does nothing more:
    the deltas are taken from the position sampled last, so the second move
    has delta 0, and the clamp and the wrap leave a pitch and a yaw they
    produced as they are. *)
Theorem X12_pointer_move_idempotent (clientX clientY : R) (s : State) :
  handlePointerMove clientX clientY (handlePointerMove clientX clientY s)
  = handlePointerMove clientX clientY s.
Proof.
  unfold handlePointerMove at 2 3. destruct (isDragging s) eqn:Hd; cbn [negb].
  - unfold handlePointerMove, setDragStart, setCameraRotation.
    cbn [isDragging dragStart cameraRotation world selectedBlock gameMode
         showInventory Point.x Point.y]. rewrite Hd. cbn [negb]. f_equal.
    set (next := dragRotation _ _ (cameraRotation s)).
    destruct (dragRotation_bounds (clientX - Point.x (dragStart s))
                (clientY - Point.y (dragStart s)) (cameraRotation s))
      as [Hx Hy]. fold next in Hx, Hy.
    destruct next as [x' y']. cbn [Rotation.x Rotation.y] in Hx, Hy.
    unfold dragRotation. cbn [Rotation.x Rotation.y]. f_equal.
    + rewrite clamp_inside; lra.
    + replace (y' + (clientX - clientX) * 0.3) with y' by lra.
      apply js_rem_bounded. lra.
  - unfold handlePointerMove. now rewrite Hd.
Qed.

Local Close Scope R_scope.

(** X13.  The gesture and the world do not interfere: a pointer event
    changes neither the store nor the world, the selection, the inventory
    flag or the game mode; every other event leaves the camera, the
    dragging flag and the sampled position as they are. *)
Theorem X13_gesture_and_world_apart (random : nat -> R) (e : Event) (s : State)
    (σ : Store) :
  let (s', σ') := step random e s σ in
  (isPointerEvent e = true ->
   σ' = σ /\ world s' = world s /\ selectedBlock s' = selectedBlock s
   /\ showInventory s' = showInventory s /\ gameMode s' = gameMode s)
  /\ (isPointerEvent e = false ->
      cameraRotation s' = cameraRotation s /\ isDragging s' = isDragging s
      /\ dragStart s' = dragStart s).
Proof.
  pose proof (step_gesture random e s σ) as Hg.
  destruct e; cbn [isPointerEvent];
    try (destruct (step random _ s σ) as [s' σ']; cbn [fst] in Hg;
         split; [discriminate|intros _; exact Hg]).
  all: cbn [step]; unfold ret; split; try discriminate; intros _.
  - now repeat split.
  - unfold handlePointerMove. destruct (isDragging s); now repeat split.
  - now repeat split.
  - now repeat split.
Qed.

Lemma X13_gesture_and_world_apart_witness :
  let (s, σ) := pageWith grass [Block.mk grass 4 0 4] in
  (let (s', σ') := step (fun _ => 0%R) (PointerDown 10 10) s σ in
   σ' = σ /\ world s' = world s)
  /\ (let (s', σ') := step (fun _ => 0%R) BuildClick s σ in
      cameraRotation s' = cameraRotation s).
Proof.
  destruct (pageWith _ _) as [s σ]. split.
  - pose proof (X13_gesture_and_world_apart (fun _ => 0%R) (PointerDown 10 10) s σ)
      as H.
    destruct (step _ _ s σ) as [s' σ']. destruct H as [H _].
    destruct (H eq_refl) as (H1 & H2 & _). now split.
  - pose proof (X13_gesture_and_world_apart (fun _ => 0%R) BuildClick s σ) as H.
    destruct (step _ _ s σ) as [s' σ']. destruct H as [_ H].
    exact (proj1 (H eq_refl)).
Defined.

(** ** The game mode *)

Lemma handleBlockClick_setGameMode m x y z isRightClick s σ :
  handleBlockClick x y z isRightClick (setGameMode m s) σ
  = let (s', σ') := handleBlockClick x y z isRightClick s σ in
    (setGameMode m s', σ').
Proof. now rewrite !handleBlockClick_run. Qed.

(** X14.  The game mode has no effect on play: whatever the mode is set to,
    every event other than a change of mode does to the page what it does
    otherwise, and leaves the mode as set. *)
Theorem X14_game_mode_is_cosmetic (random : nat -> R) (e : Event)
    (m : GameMode) (s : State) (σ : Store) :
  (forall v, e <> GameModeChange v) ->
  step random e (setGameMode m s) σ
  = let (s', σ') := step random e s σ in (setGameMode m s', σ').
Proof.
  intros He. destruct e; cbn [step].
  - rewrite !generateWorld_run. reflexivity.
  - unfold bind, ret.
    change (render (setGameMode m s) σ) with (render s σ).
    now destruct (render s σ).
  - reflexivity.
  - unfold ret, handlePointerMove. cbn [isDragging setGameMode].
    now destruct (isDragging s).
  - reflexivity.
  - reflexivity.
  - unfold onTile, bind.
    change (render (setGameMode m s) σ) with (render s σ).
    destruct (render s σ) as [tiles σ1].
    destruct (nth_error tiles idx) as [[block pos]|]; [|reflexivity].
    apply handleBlockClick_setGameMode.
  - unfold onTile, bind.
    change (render (setGameMode m s) σ) with (render s σ).
    destruct (render s σ) as [tiles σ1].
    destruct (nth_error tiles idx) as [[block pos]|]; [|reflexivity].
    apply handleBlockClick_setGameMode.
  - now elim (He v).
  - reflexivity.
  - cbn [showInventory setGameMode].
    now destruct (showInventory s), (nth_error inventory idx).
  - unfold destroyOnClick, destroyAt, bind, Array_find, bind, Array_read, ret.
    cbn [world setGameMode].
    destruct (List.find _ _); [|reflexivity].
    apply handleBlockClick_setGameMode.
  - unfold buildOnClick, placeOnTopOf, bind, Array_read. cbn [world setGameMode].
    apply handleBlockClick_setGameMode.
Qed.

Lemma X14_game_mode_is_cosmetic_witness :
  let (s, σ) := pageWith stone [Block.mk grass 4 0 4] in
  step (fun _ => 0%R) BuildClick (setGameMode survival s) σ
  = let (s', σ') := step (fun _ => 0%R) BuildClick s σ in
    (setGameMode survival s', σ').
Proof.
  destruct (pageWith _ _) as [s σ].
  apply X14_game_mode_is_cosmetic. discriminate.
Defined.

(** ** What is shown of the materials *)

Lemma page_noAir random events :
  let (s, σ) := page random events in noAir s σ.
Proof.
  unfold page, bind. pose proof initialState_noAir as H0.
  destruct (initialState emptyStore) as [s0 σ0].
  apply (run_noAir random events s0 σ0 H0).
Qed.

Lemma inventory_keys : List.NoDup (List.map InventoryItem.type inventory).
Proof.
  cbn. repeat (apply List.NoDup_cons; [cbn; intuition discriminate|]).
  apply List.NoDup_nil.
Qed.

(** X15.  The selection is always one of the six materials of the
    inventory, never [air]: on every page the badge has a colour other than
    ["transparent"] and shows exactly one label, and exactly one item of
    the inventory passes the test that highlights its button; the items
    have pairwise different materials, which are the keys of their
    buttons. *)
Theorem X15_selection_is_an_inventory_material (random : nat -> R)
    (events : list Event) :
  let s := fst (page random events) in
  In (selectedBlock s) (List.map InventoryItem.type inventory)
  /\ length (badgeLabels (selectedBlock s)) = 1%nat
  /\ blockColors (selectedBlock s) <> "transparent"%string
  /\ length (List.filter
               (fun item => bool_decide (selectedBlock s = InventoryItem.type item))
               inventory) = 1%nat
  /\ (showInventory s = true ->
      length (List.filter snd (inventoryButtons s)) = 1%nat)
  /\ List.NoDup (List.map InventoryItem.type inventory).
Proof.
  cbv zeta. pose proof (page_inDataModel random events) as H.
  destruct (page random events) as [s σ]. cbn [fst].
  destruct H as (_ & Hsel & _).
  unfold inventoryButtons.
  destruct (selectedBlock s); try contradiction;
    (split; [cbn; tauto|]); (split; [reflexivity|]);
    (split; [discriminate|]); (split; [reflexivity|]);
    (split; [intros ->; reflexivity|]); apply inventory_keys.
Qed.

Lemma X15_selection_is_an_inventory_material_witness :
  let s := fst (page (fun _ => 0%R) [InventoryButton; InventoryPick 2; InventoryButton]) in
  length (List.filter snd (inventoryButtons s)) = 1%nat.
Proof.
  cbv zeta.
  apply (X15_selection_is_an_inventory_material (fun _ => 0%R)
           [InventoryButton; InventoryPick 2; InventoryButton]).
  reflexivity.
Defined.

(** X16.  No tile is ever invisible: on every page every tile drawn has a
    background other than ["transparent"], the texture of a material that
    is not [air]. *)
Theorem X16_no_transparent_tile (random : nat -> R) (events : list Event) :
  let (s, σ) := page random events in
  Forall (fun tile => tileBackground (fst tile) <> "transparent"%string
                      /\ Block.type (fst tile) <> air)
    (fst (render s σ)).
Proof.
  pose proof (page_noAir random events) as H.
  destruct (page random events) as [s σ]. destruct H as [_ Hair].
  rewrite List.Forall_forall in *. intros [block pos] Hin.
  apply In_nth_error in Hin. destruct Hin as [idx Hidx].
  apply tile_block_in_world in Hidx. specialize (Hair _ Hidx). cbn [fst].
  split; [|exact Hair]. unfold tileBackground.
  destruct (Block.type block); try discriminate. contradiction.
Qed.

(** ** The generated world, block by block *)

Lemma forLoop_append (c : nat) (f : Z -> nat -> list Block.t)
    (body : Z -> L unit) :
  (forall i w n, body i (w, n) = (tt, (w ++ f i n, (n + c)%nat))) ->
  forall k i w n,
    forLoop k i body (w, n)
    = (tt, (w ++ concat (List.map (fun j => f (i + Z.of_nat j) (n + j * c)%nat)
                           (seq 0 k)),
            (n + k * c)%nat)).
Proof.
  intros Hb k. induction k as [|k IH]; intros i w n.
  - cbn. rewrite app_nil_r, Nat.add_0_r. reflexivity.
  - cbn [forLoop]. unfold bind. rewrite Hb, IH.
    cbn [seq List.map concat]. rewrite <- (List.seq_shift k 0), List.map_map.
    rewrite <- app_assoc. do 2 f_equal; [|lia]. do 2 f_equal.
    + f_equal; lia.
    + f_equal. apply List.map_ext. intros j. f_equal; lia.
Qed.

Lemma groundL_run random w n :
  groundL random (w, n)
  = (tt, (w ++ concat (List.map (fun j => groundRow random (0 + Z.of_nat j) (n + j * 8))
                         (seq 0 (Z.to_nat WORLD_SIZE))),
          (n + 64)%nat)).
Proof.
  unfold groundL.
  rewrite (forLoop_append 8 (fun x n => groundRow random x n)).
  - reflexivity.
  - intros x w0 n0.
    rewrite (forLoop_append 1 (fun z n => groundCell random x z n)).
    + reflexivity.
    + intros z w1 n1. unfold bind, pushL, randomL, ret, groundCell.
      cbn [fst snd]. destruct (Rgt_dec (random n1) 0.7);
        cbn [fst snd]; rewrite <- ?app_assoc, Nat.add_1_r; reflexivity.
Qed.

Lemma treesL_run random w n :
  treesL random (w, n)
  = (tt, (w ++ flat_map treeBlocks
                 [treeColumn random n; treeColumn random (n + 2);
                  treeColumn random (n + 4)],
          (n + 6)%nat)).
Proof.
  unfold treesL.
  rewrite (forLoop_append 2 (fun _ n => treeBlocks (treeColumn random n))).
  - cbn [seq List.map concat flat_map]. rewrite Nat.add_0_r.
    rewrite app_nil_r. reflexivity.
  - intros i w0 n0. unfold bind, pushL, randomL, ret, treeBlocks, treeColumn.
    cbn [fst snd]. rewrite <- !app_assoc.
    replace (n0 + 2)%nat with (S (S n0)) by lia. reflexivity.
Qed.

Lemma generateL_run random n :
  snd (generateL random ([], n))
  = (concat (List.map (fun j => groundRow random (0 + Z.of_nat j) (n + j * 8))
               (seq 0 (Z.to_nat WORLD_SIZE)))
     ++ flat_map treeBlocks
          [treeColumn random (n + 64); treeColumn random (n + 64 + 2);
           treeColumn random (n + 64 + 4)],
     (n + 70)%nat).
Proof.
  unfold generateL, bind. rewrite groundL_run, treesL_run. cbn [snd app].
  f_equal. lia.
Qed.

Lemma mount_run random s σ :
  let (s', σ') := step random Mount s σ in
  contents σ' (world s')
  = groundBlocks random (randomCalls σ)
    ++ flat_map treeBlocks (treeColumns random (randomCalls σ))
  /\ randomCalls σ' = (randomCalls σ + 70)%nat.
Proof.
  cbn [step]. rewrite generateWorld_run. cbv zeta. cbn [world withWorld].
  rewrite contents_insert_eq, generateL_run. cbn [fst snd randomCalls].
  split; reflexivity.
Qed.

Lemma filter_concat_map {A B} (p : B -> bool) (f : A -> list B) (l : list A) :
  List.filter p (concat (List.map f l))
  = concat (List.map (fun j => List.filter p (f j)) l).
Proof.
  induction l as [|a l IH]; cbn [List.map concat]; [reflexivity|].
  rewrite List.filter_app, IH. reflexivity.
Qed.

Lemma length_concat_map_le {A B} (c : nat) (f : A -> list B) (l : list A) :
  (forall j, length (f j) <= c)%nat ->
  (length (concat (List.map f l)) <= length l * c)%nat.
Proof.
  intros Hf. induction l as [|a l IH]; cbn [List.map concat length]; [lia|].
  rewrite List.length_app. specialize (Hf a). lia.
Qed.

Lemma In_groundBlocks random n b :
  In b (groundBlocks random n)
  <-> exists jx jz, (jx < 8)%nat /\ (jz < 8)%nat
        /\ In b (groundCell random (Z.of_nat jx) (Z.of_nat jz) (n + jx * 8 + jz)).
Proof.
  unfold groundBlocks, groundRow. rewrite <- List.flat_map_concat_map.
  rewrite List.in_flat_map. split.
  - intros (jx & Hjx & Hb). rewrite <- List.flat_map_concat_map in Hb.
    apply List.in_flat_map in Hb. destruct Hb as (jz & Hjz & Hb).
    apply List.in_seq in Hjx, Hjz. change (Z.to_nat WORLD_SIZE) with 8%nat in *.
    exists jx, jz. rewrite Nat.mul_1_r in Hb. repeat split; [lia | lia | exact Hb].
  - intros (jx & jz & Hjx & Hjz & Hb). exists jx.
    split; [apply List.in_seq; change (Z.to_nat WORLD_SIZE) with 8%nat; lia|].
    rewrite <- List.flat_map_concat_map. apply List.in_flat_map. exists jz.
    split; [apply List.in_seq; change (Z.to_nat WORLD_SIZE) with 8%nat; lia|].
    rewrite Nat.mul_1_r. exact Hb.
Qed.

Lemma filter_groundBlocks random n (p : Block.t -> bool) :
  List.filter p (groundBlocks random n)
  = concat (List.map (fun jx =>
      concat (List.map (fun jz =>
        List.filter p (groundCell random (0 + Z.of_nat jx) (0 + Z.of_nat jz)
                         (n + jx * 8 + jz * 1)))
        (seq 0 (Z.to_nat WORLD_SIZE))))
      (seq 0 (Z.to_nat WORLD_SIZE))).
Proof.
  unfold groundBlocks, groundRow. rewrite filter_concat_map.
  f_equal. apply List.map_ext. intros jx. apply filter_concat_map.
Qed.

(** Evaluates the comparisons of two given materials. *)
Ltac decide_types :=
  repeat match goal with
         | |- context [bool_decide ?P] =>
             let v := eval vm_compute in (bool_decide P) in
             change (bool_decide P) with v
         end.

Lemma count_by_type (w : list Block.t) :
  Forall (fun b => generatedType (Block.type b)) w ->
  length w
  = (length (List.filter (ofType grass) w) + length (List.filter (ofType dirt) w)
     + length (List.filter (ofType wood) w)
     + length (List.filter (ofType leaves) w))%nat.
Proof.
  induction 1 as [|b w Hb _ IH]; [reflexivity|].
  cbn [List.filter length].
  assert (E : forall t, ofType t b = bool_decide (Block.type b = t))
    by reflexivity.
  rewrite !E.
  destruct Hb as [-> | [-> | [-> | ->]]]; decide_types; cbn [length]; lia.
Qed.

(** X17.  Whatever the world was and whatever numbers [Math.random]
    returns, the mount effect draws exactly 70 random numbers and builds a
    world whose grass blocks are the 64 cells of the grid at height 0, row
    after row, with 6 wood blocks, 3 leaves blocks and at most 64 dirt
    blocks: 73 blocks and one more for every dirt block. *)
Theorem X17_mount_counts (random : nat -> R) (s : State) (σ : Store) :
  let (s', σ') := step random Mount s σ in
  let w := contents σ' (world s') in
  randomCalls σ' = (randomCalls σ + 70)%nat
  /\ List.filter (ofType grass) w
     = List.map (fun c => Block.mk grass (fst c) 0 (snd c)) gridCells
  /\ length (List.filter (ofType wood) w) = 6%nat
  /\ length (List.filter (ofType leaves) w) = 3%nat
  /\ (length (List.filter (ofType dirt) w) <= 64)%nat
  /\ length w = (73 + length (List.filter (ofType dirt) w))%nat.
Proof.
  pose proof (mount_run random s σ) as H.
  pose proof (@mount_types random s σ) as Ht.
  destruct (step random Mount s σ) as [s' σ']. destruct H as [Hw Hn].
  destruct Ht as [_ Ht]. cbv zeta.
  assert (Hgrass : List.filter (ofType grass) (contents σ' (world s'))
                   = List.map (fun c => Block.mk grass (fst c) 0 (snd c)) gridCells).
  { rewrite Hw, List.filter_app, filter_groundBlocks.
    erewrite List.map_ext.
    2:{ intros jx. erewrite List.map_ext; [reflexivity|].
        intros jz. unfold groundCell.
        instantiate (1 := fun jz => [Block.mk grass (0 + Z.of_nat jx) 0 (0 + Z.of_nat jz)]).
        cbn [List.filter]. destruct (Rgt_dec _ _); reflexivity. }
    reflexivity. }
  assert (Hwood : length (List.filter (ofType wood) (contents σ' (world s'))) = 6%nat).
  { rewrite Hw, List.filter_app, filter_groundBlocks.
    erewrite List.map_ext.
    2:{ intros jx. erewrite List.map_ext; [reflexivity|].
        intros jz. unfold groundCell.
        instantiate (1 := fun _ => []).
        cbn [List.filter]. destruct (Rgt_dec _ _); reflexivity. }
    reflexivity. }
  assert (Hleaves : length (List.filter (ofType leaves) (contents σ' (world s'))) = 3%nat).
  { rewrite Hw, List.filter_app, filter_groundBlocks.
    erewrite List.map_ext.
    2:{ intros jx. erewrite List.map_ext; [reflexivity|].
        intros jz. unfold groundCell.
        instantiate (1 := fun _ => []).
        cbn [List.filter]. destruct (Rgt_dec _ _); reflexivity. }
    reflexivity. }
  assert (Hdirt : (length (List.filter (ofType dirt) (contents σ' (world s'))) <= 64)%nat).
  { rewrite Hw, List.filter_app, filter_groundBlocks, List.length_app.
    change (length (List.filter (ofType dirt) (flat_map treeBlocks _))) with 0%nat.
    rewrite Nat.add_0_r.
    etransitivity.
    - apply (length_concat_map_le 8). intros jx.
      etransitivity; [apply (length_concat_map_le 1)|].
      + intros jz. unfold groundCell.
        destruct (Rgt_dec _ _); unfold ofType;
          cbn [List.filter Block.type]; decide_types; cbn [length]; lia.
      + rewrite List.length_seq. change (Z.to_nat WORLD_SIZE) with 8%nat. lia.
    - rewrite List.length_seq. change (Z.to_nat WORLD_SIZE) with 8%nat. lia. }
  repeat split; try assumption.
  rewrite (count_by_type _ Ht), Hgrass, Hwood, Hleaves.
  rewrite List.length_map. change (length gridCells) with 64%nat. lia.
Qed.

Lemma In_treeBlocks b column :
  In b (treeBlocks column) ->
  (Block.type b = wood \/ Block.type b = leaves)
  /\ Block.x b = fst column /\ Block.z b = snd column
  /\ 1 <= Block.y b <= 3.
Proof.
  unfold treeBlocks. cbn [In]. intros [<- | [<- | [<- | []]]]; cbn; intuition lia.
Qed.

Lemma In_groundCell random x z n b :
  In b (groundCell random x z n)
  <-> b = Block.mk grass x 0 z
      \/ (b = Block.mk dirt x 1 z /\ (random n > 0.7)%R).
Proof.
  unfold groundCell. destruct (Rgt_dec (random n) 0.7) as [Hr | Hr]; cbn [In].
  - intuition.
  - intuition.
Qed.

(** X18.  The dirt blocks of the generated world are decided by the first
    64 random numbers drawn, one for each cell in the order of the loops:
    there is a dirt block at [(x, y, z)] exactly when [y] is 1, the cell
    [(x, z)] is on the grid and the draw of that cell is greater than
    0.7. *)
Theorem X18_dirt_follows_draw (random : nat -> R) (s : State) (σ : Store)
    (x y z : Z) :
  let (s', σ') := step random Mount s σ in
  In (Block.mk dirt x y z) (contents σ' (world s'))
  <-> y = 1 /\ 0 <= x < WORLD_SIZE /\ 0 <= z < WORLD_SIZE
      /\ (random (randomCalls σ + Z.to_nat (x * WORLD_SIZE + z)%Z)%nat > 0.7)%R.
Proof.
  pose proof (mount_run random s σ) as H.
  destruct (step random Mount s σ) as [s' σ']. destruct H as [-> _].
  unfold WORLD_SIZE. rewrite List.in_app_iff, In_groundBlocks. split.
  - intros [(jx & jz & Hjx & Hjz & Hb) | Hb].
    + apply In_groundCell in Hb. destruct Hb as [Hb | [Hb Hr]]; [discriminate|].
      injection Hb as -> -> ->.
      replace (Z.to_nat (Z.of_nat jx * 8 + Z.of_nat jz)) with (jx * 8 + jz)%nat
        by lia.
      rewrite Nat.add_assoc. repeat split; try lia. exact Hr.
    + apply List.in_flat_map in Hb. destruct Hb as (column & _ & Hb).
      apply In_treeBlocks in Hb. cbn [Block.type] in Hb.
      destruct Hb as [[Hb | Hb] _]; discriminate.
  - intros (-> & Hx & Hz & Hr). left.
    exists (Z.to_nat x), (Z.to_nat z). repeat split; try lia.
    apply In_groundCell. right. split.
    + f_equal; lia.
    + replace (randomCalls σ + Z.to_nat x * 8 + Z.to_nat z)%nat
        with (randomCalls σ + Z.to_nat (x * 8 + z))%nat by lia.
      exact Hr.
Qed.

Lemma treeColumn_range random n :
  (forall k, 0 <= random k < 1)%R ->
  0 <= fst (treeColumn random n) <= WORLD_SIZE - 2
  /\ 0 <= snd (treeColumn random n) <= WORLD_SIZE - 2.
Proof.
  intros Hr.
  assert (H : forall r, (0 <= r < 1)%R -> 0 <= Int_part (r * IZR (WORLD_SIZE - 1)) <= WORLD_SIZE - 2).
  { intros r [H0 H1]. change (IZR (WORLD_SIZE - 1)) with 7%R.
    change (WORLD_SIZE - 2) with 6. split.
    - rewrite <- (Int_part_IZR 0). apply Int_part_monotone. lra.
    - destruct (Int_part_floor (r * 7)) as [Hf _].
      assert (Hlt : (IZR (Int_part (r * 7)) < IZR 7)%R) by lra.
      apply lt_IZR in Hlt. lia. }
  unfold treeColumn. cbn [fst snd]. split; apply H, Hr.
Qed.

(** X19.  The generated world is the ground followed by three trees, each
    two wood blocks at heights 1 and 2 and a leaves block at height 3 on one
    column; the ground is grass and dirt.  When [Math.random] returns
    numbers from 0 up to but less than 1, every block lies on the grid, and
    no tree stands on the last row or the last column of it. *)
Theorem X19_trees_inside_grid (random : nat -> R) (s : State) (σ : Store) :
  (forall n, 0 <= random n < 1)%R ->
  let (s', σ') := step random Mount s σ in
  exists ground columns,
    contents σ' (world s') = ground ++ flat_map treeBlocks columns
    /\ length columns = 3%nat
    /\ Forall (fun b => Block.type b = grass \/ Block.type b = dirt) ground
    /\ Forall (fun c => 0 <= fst c <= WORLD_SIZE - 2
                        /\ 0 <= snd c <= WORLD_SIZE - 2) columns
    /\ Forall (fun b => 0 <= Block.x b < WORLD_SIZE
                        /\ 0 <= Block.z b < WORLD_SIZE)
         (contents σ' (world s')).
Proof.
  intros Hr. pose proof (mount_run random s σ) as H.
  destruct (step random Mount s σ) as [s' σ']. destruct H as [Hw _].
  exists (groundBlocks random (randomCalls σ)), (treeColumns random (randomCalls σ)).
  assert (Hc : Forall (fun c => 0 <= fst c <= WORLD_SIZE - 2
                                /\ 0 <= snd c <= WORLD_SIZE - 2)
                 (treeColumns random (randomCalls σ))).
  { unfold treeColumns. repeat constructor; apply treeColumn_range, Hr. }
  split; [exact Hw|]. split; [reflexivity|]. split; [|split; [exact Hc|]].
  - apply List.Forall_forall. intros b Hb. apply In_groundBlocks in Hb.
    destruct Hb as (jx & jz & _ & _ & Hb). apply In_groundCell in Hb.
    destruct Hb as [-> | [-> _]]; [left | right]; reflexivity.
  - rewrite Hw. apply List.Forall_app. split.
    + apply List.Forall_forall. intros b Hb. apply In_groundBlocks in Hb.
      destruct Hb as (jx & jz & Hjx & Hjz & Hb). apply In_groundCell in Hb.
      unfold WORLD_SIZE.
      destruct Hb as [-> | [-> _]]; cbn [Block.x Block.z]; lia.
    + apply List.Forall_forall. intros b Hb.
      apply List.in_flat_map in Hb. destruct Hb as (column & Hcol & Hb).
      apply In_treeBlocks in Hb. destruct Hb as (_ & -> & -> & _).
      rewrite List.Forall_forall in Hc. specialize (Hc _ Hcol).
      unfold WORLD_SIZE in *. lia.
Qed.

Lemma X19_trees_inside_grid_witness :
  let (s', σ') := step (fun _ => 0%R) Mount (fst (initialState emptyStore))
                    (snd (initialState emptyStore)) in
  exists ground columns,
    contents σ' (world s') = ground ++ flat_map treeBlocks columns
    /\ length columns = 3%nat
    /\ Forall (fun b => Block.type b = grass \/ Block.type b = dirt) ground
    /\ Forall (fun c => 0 <= fst c <= WORLD_SIZE - 2
                        /\ 0 <= snd c <= WORLD_SIZE - 2) columns
    /\ Forall (fun b => 0 <= Block.x b < WORLD_SIZE
                        /\ 0 <= Block.z b < WORLD_SIZE)
         (contents σ' (world s')).
Proof.
  apply (X19_trees_inside_grid (fun _ => 0%R)). intros _. lra.
Defined.

(** ** Arrays are never modified in place *)

Lemma step_frame random e s σ :
  allocated σ (world s) -> frame σ (snd (step random e s σ)).
Proof.
  intros Hw.
  assert (e = Mount \/ e <> Mount) as [-> | He]
    by (destruct e; (now left) || (right; discriminate)).
  - cbn [step]. rewrite generateWorld_run. cbv zeta. cbn [snd].
    apply frame_insert_fresh, fresh_loc_fresh.
  - pose proof (step_edit random e s σ He Hw) as H.
    destruct (step random e s σ) as [s' σ']. apply H.
Qed.

(** X21.  No handler modifies an array in place: whatever the events, the
    mount effect among them, every array that existed before them holds the
    same blocks after them, so a reference to an earlier world still shows
    that world; each edit is made on a new array, which the state then
    points to. *)
Theorem X21_arrays_never_mutated (random : nat -> R) (events : list Event)
    (s : State) (σ : Store) :
  allocated σ (world s) ->
  let (s', σ') := run random events s σ in
  frame σ σ' /\ allocated σ' (world s').
Proof.
  revert s σ. induction events as [|e events IH]; intros s σ Hw; cbn [run].
  - unfold ret. split; [apply frame_refl | exact Hw].
  - unfold bind. pose proof (step_frame random e s σ Hw) as Hf.
    pose proof (step_allocated random e s σ Hw) as Ha.
    destruct (step random e s σ) as [s1 σ1]. cbn [snd] in Hf.
    specialize (IH s1 σ1 Ha).
    destruct (run random events s1 σ1) as [s' σ']. destruct IH as [Hf' Ha'].
    split; [now apply (frame_trans σ σ1 σ') | exact Ha'].
Qed.

Lemma X21_arrays_never_mutated_witness :
  let (s, σ) := pageWith grass [Block.mk grass 0 0 0; Block.mk dirt 2 1 0] in
  let (s', σ') := run (fun _ => 0%R) [TileClick 0; Mount; BuildClick] s σ in
  contents σ' (world s) = [Block.mk grass 0 0 0; Block.mk dirt 2 1 0].
Proof.
  pose proof (pageWith_contents grass [Block.mk grass 0 0 0; Block.mk dirt 2 1 0])
    as H0.
  destruct (pageWith _ _) as [s σ]. destruct H0 as (Hw & _ & Ha).
  pose proof (X21_arrays_never_mutated (fun _ => 0%R)
                [TileClick 0; Mount; BuildClick] s σ Ha) as H.
  destruct (run _ _ s σ) as [s' σ']. destruct H as [Hf _].
  destruct (Hf _ Ha) as [_ E]. rewrite E. exact Hw.
Defined.
